(** * RankRatesMusic: the local persistence and playback core of [script.js]

    A shallow embedding of the metadata store ([loadMeta], [saveMeta],
    [defaultMeta]), the account and follow mutators ([ensureSuperAdmin],
    [registerUser], [loginUser], [followUser], [unfollowUser]) and the
    player engine ([playSong], [playNext], [playPrev]), followed by the
    properties of the specification that concern them. *)

From Stdlib Require Import ZArith Ascii.
From stdpp Require Import base option list strings pretty gmap.

Local Open Scope string_scope.
Local Open Scope Z_scope.
Local Open Scope list_scope.

(** ** JavaScript values held by the metadata document

    [JSON.parse] yields null, booleans, numbers, strings, arrays and
    plain objects.  The numbers this program writes are integers (id
    counters, [Date.now()], years, rounded durations), so a number is a
    [Z].  An object keeps its own properties in insertion order.  An
    array carries, besides its elements, the named properties that a
    script may attach to it ([JSON.parse] attaches none). *)

#[local] Set Warnings "-register-all".

Inductive JSValue : Type :=
| JNull
| JBool (b : bool)
| JNum (n : Z)
| JStr (s : string)
| JArr (elems : list JSValue) (named : list (string * JSValue))
| JObj (props : list (string * JSValue)).

(** [undefined] is not a JSON value: a property read gives
    [option JSValue], with [None] for [undefined]. *)

(** ToBoolean, as used by [!x]. *)
Definition truthy (v : option JSValue) : bool :=
  match v with
  | None => false
  | Some JNull => false
  | Some (JBool b) => b
  | Some (JNum n) => negb (n =? 0)
  | Some (JStr s) => negb (String.eqb s EmptyString)
  | Some (JArr _ _) => true
  | Some (JObj _) => true
  end.

Fixpoint own_get (props : list (string * JSValue)) (k : string) : option JSValue :=
  match props with
  | [] => None
  | (k', v) :: rest => if String.eqb k' k then Some v else own_get rest k
  end.

(** Assignment to an own property: an existing key keeps its position,
    a new key is added last. *)
Fixpoint own_set (props : list (string * JSValue)) (k : string) (v : JSValue)
  : list (string * JSValue) :=
  match props with
  | [] => [(k, v)]
  | (k', v') :: rest =>
      if String.eqb k' k then (k, v) :: rest else (k', v') :: own_set rest k v
  end.

(** The script has no ["use strict"] directive; whether the page loads it
    as a classic script or as a module is not part of the source, so the
    mode is an input of the model. *)
Inductive Mode := Sloppy | Strict.

Inductive Exn := TypeError | SyntaxError.

(** [v.k] for a key [k] that no built-in prototype defines (the six
    collection names read by [loadMeta] are such keys). *)
Definition get_prop (v : JSValue) (k : string) : Exn + option JSValue :=
  match v with
  | JNull => inl TypeError
  | JBool _ | JNum _ | JStr _ => inr None
  | JArr _ named => inr (own_get named k)
  | JObj props => inr (own_get props k)
  end.

(** [v.k = x] for such a key.  On a primitive the assignment is dropped
    in sloppy mode and throws in strict mode. *)
Definition set_prop (mode : Mode) (v : JSValue) (k : string) (x : JSValue)
  : Exn + JSValue :=
  match v with
  | JNull => inl TypeError
  | JBool _ | JNum _ | JStr _ =>
      match mode with Sloppy => inr v | Strict => inl TypeError end
  | JArr elems named => inr (JArr elems (own_set named k x))
  | JObj props => inr (JObj (own_set props k x))
  end.

(** What [JSON.parse (JSON.stringify v)] reads back: the named
    properties of arrays are not serialised. *)
Fixpoint serialised (v : JSValue) : JSValue :=
  match v with
  | JArr elems _ => JArr (List.map serialised elems) []
  | JObj props =>
      JObj (List.map (fun kv => match kv with (k, x) => (k, serialised x) end) props)
  | _ => v
  end.

(** ** localStorage metadata helpers *)

(** The item stored under [META_KEY], seen through
    [localStorage.getItem] and [JSON.parse]. *)
Inductive Stored : Type :=
| NoItem                (* getItem gives null *)
| Blank                 (* the empty string, falsy like null *)
| Garbled               (* a text on which JSON.parse throws SyntaxError *)
| Json (v : JSValue).   (* a text that JSON.parse reads as v *)

Definition defaultMeta : JSValue :=
  JObj [ ("users", JArr [] []);
         ("songs", JArr [] []);
         ("albums", JArr [] []);
         ("playlists", JArr [] []);
         ("likes", JObj []);
         ("followers", JObj []);
         ("recentlyPlayed", JArr [] []);
         ("nextIds", JObj [("song", JNum 1); ("album", JNum 1);
                           ("playlist", JNum 1); ("user", JNum 1)]) ].

(** [saveMeta(meta)]: the whole document replaces the stored item. *)
Definition saveMeta_doc (meta : JSValue) (_ : Stored) : Stored :=
  Json (serialised meta).

(** [if (!parsed.k) parsed.k = empty;] *)
Definition migrate (mode : Mode) (k : string) (empty : JSValue) (parsed : JSValue)
  : Exn + JSValue :=
  match get_prop parsed k with
  | inl e => inl e
  | inr cur => if truthy cur then inr parsed else set_prop mode parsed k empty
  end.

Definition and_then {E A B} (r : E + A) (f : A -> E + B) : E + B :=
  match r with inl e => inl e | inr a => f a end.

(** The body of the [try] block of [loadMeta] once [raw] is truthy and
    parsed. *)
Definition migrations (mode : Mode) (parsed : JSValue) : Exn + JSValue :=
  and_then (migrate mode "users" (JArr [] []) parsed) (fun p1 =>
  and_then (migrate mode "songs" (JArr [] []) p1) (fun p2 =>
  and_then (migrate mode "playlists" (JArr [] []) p2) (fun p3 =>
  and_then (migrate mode "albums" (JArr [] []) p3) (fun p4 =>
  and_then (migrate mode "likes" (JObj []) p4) (fun p5 =>
  migrate mode "followers" (JObj []) p5))))).

(** What one migration line makes of the properties of an object. *)
Definition fill (k : string) (e : JSValue) (props : list (string * JSValue))
  : list (string * JSValue) :=
  if truthy (own_get props k) then props else own_set props k e.

(** What a load does to the outside besides returning a document. *)
Inductive LoadEffect :=
| ConsoleWarn
| SetItem (doc : JSValue).

Record Loaded := {
  loaded_doc : JSValue;          (* the value returned *)
  loaded_store : Stored;         (* the item under META_KEY afterwards *)
  loaded_log : list LoadEffect }.

(** The [catch] block of [loadMeta]: warn, build the default, save it. *)
Definition loadMeta_catch (st : Stored) : Loaded :=
  let m := defaultMeta in
  {| loaded_doc := m; loaded_store := saveMeta_doc m st;
     loaded_log := [ConsoleWarn; SetItem (serialised m)] |}.

(** [JSON.parse(raw)] for a truthy [raw]. *)
Definition JSON_parse (st : Stored) : Exn + JSValue :=
  match st with
  | Json v => inr v
  | _ => inl SyntaxError
  end.

Definition loadMeta (mode : Mode) (st : Stored) : Loaded :=
  match st with
  | NoItem | Blank =>
      {| loaded_doc := defaultMeta; loaded_store := st; loaded_log := [] |}
  | _ =>
      match and_then (JSON_parse st) (migrations mode) with
      | inr doc => {| loaded_doc := doc; loaded_store := st; loaded_log := [] |}
      | inl _ => loadMeta_catch st
      end
  end.

(** The top-level keys of the metadata document. *)
Definition required_keys : list string :=
  ["users"; "songs"; "albums"; "playlists"; "likes"; "followers";
   "recentlyPlayed"; "nextIds"].

Definition migrated_keys : list string :=
  ["users"; "songs"; "playlists"; "albums"; "likes"; "followers"].

(** Key [k] is present in the document (reading it does not give
    [undefined]). *)
Definition present (doc : JSValue) (k : string) : bool :=
  match get_prop doc k with
  | inr (Some _) => true
  | _ => false
  end.

Definition all_present (doc : JSValue) : bool :=
  forallb (present doc) required_keys.

(** The empty collection that [loadMeta] assigns to a key. *)
Definition empty_for (k : string) : JSValue :=
  if existsb (String.eqb k) ["likes"; "followers"] then JObj [] else JArr [] [].

(** ** The in-memory application state

    The records below are the shapes that [defaultMeta] and the
    constructors in the script give to the document.  [recentlyPlayed]
    and [nextIds] are optional because [loadMeta] does not add them to a
    stored document that lacks them. *)

Record User := {
  user_id : Z;
  username : string;
  password : string;
  displayName : string;
  bio : string;
  verified : bool;
  superAdmin : bool;
  imageAssetId : option string;
  createdAt : Z }.

Record Song := {
  song_id : string;
  title : string;
  artist : string;
  albumId : string;
  duration : Z;
  assetId : string;
  coverAssetId : string;
  genre : string;
  language : string;
  explicit : bool;
  uploadedBy : string }.

Record Album := {
  album_id : string;
  album_title : string;
  album_artist : string;
  year : Z;
  album_coverAssetId : string;
  tracks : list string }.

Record Playlist := {
  playlist_id : string;
  name : string;
  owner : string;
  playlist_tracks : list string;
  playlist_coverAssetId : option string;
  private : bool;
  sharedWith : list string;
  playlist_createdAt : Z }.

Record NextIds := { next_song : Z; next_album : Z; next_playlist : Z; next_user : Z }.

Record Meta := {
  users : list User;
  songs : list Song;
  albums : list Album;
  playlists : list Playlist;
  likes : gmap string (list string);
  followers : gmap string (list string);
  recentlyPlayed : option (list string);
  nextIds : option NextIds }.

Record Blob := { blob_type : string; blob_data : list Z }.

(** The [<audio>] element: only its source matters here. *)
Record Audio := { src : option Blob }.

Record Player := {
  queue : list string;
  index : Z;
  playing : bool;
  audioEl : option Audio;
  currentSongId : option string;
  seekUpdating : bool }.

(** What the operations do besides changing the state: messages shown,
    documents written to localStorage, rendering requests. *)
Inductive Effect :=
| Toast (msg : string)
| Saved (doc : Meta)
| RenderedAuthArea
| UpdatedPlayerUI (song : Song)
| ConsoleError.

(** [state] (without the routing fields), the IndexedDB asset store and
    the effects so far, oldest first. *)
Record World := {
  meta : Meta;
  currentUser : option User;
  player : Player;
  assets : gmap string Blob;
  trace : list Effect }.

Definition with_meta (m : Meta) (w : World) : World :=
  {| meta := m; currentUser := currentUser w; player := player w;
     assets := assets w; trace := trace w |}.

Definition with_currentUser (u : option User) (w : World) : World :=
  {| meta := meta w; currentUser := u; player := player w;
     assets := assets w; trace := trace w |}.

Definition with_player (p : Player) (w : World) : World :=
  {| meta := meta w; currentUser := currentUser w; player := p;
     assets := assets w; trace := trace w |}.

Definition with_trace (t : list Effect) (w : World) : World :=
  {| meta := meta w; currentUser := currentUser w; player := player w;
     assets := assets w; trace := t |}.

Definition with_users (us : list User) (m : Meta) : Meta :=
  {| users := us; songs := songs m; albums := albums m; playlists := playlists m;
     likes := likes m; followers := followers m;
     recentlyPlayed := recentlyPlayed m; nextIds := nextIds m |}.

Definition with_followers (f : gmap string (list string)) (m : Meta) : Meta :=
  {| users := users m; songs := songs m; albums := albums m; playlists := playlists m;
     likes := likes m; followers := f;
     recentlyPlayed := recentlyPlayed m; nextIds := nextIds m |}.

Definition with_recentlyPlayed (rp : option (list string)) (m : Meta) : Meta :=
  {| users := users m; songs := songs m; albums := albums m; playlists := playlists m;
     likes := likes m; followers := followers m;
     recentlyPlayed := rp; nextIds := nextIds m |}.

Definition with_nextIds (n : option NextIds) (m : Meta) : Meta :=
  {| users := users m; songs := songs m; albums := albums m; playlists := playlists m;
     likes := likes m; followers := followers m;
     recentlyPlayed := recentlyPlayed m; nextIds := n |}.

Definition with_next_user (n : Z) (ids : NextIds) : NextIds :=
  {| next_song := next_song ids; next_album := next_album ids;
     next_playlist := next_playlist ids; next_user := n |}.

Definition with_queue (q : list string) (p : Player) : Player :=
  {| queue := q; index := index p; playing := playing p; audioEl := audioEl p;
     currentSongId := currentSongId p; seekUpdating := seekUpdating p |}.

Definition with_index (i : Z) (p : Player) : Player :=
  {| queue := queue p; index := i; playing := playing p; audioEl := audioEl p;
     currentSongId := currentSongId p; seekUpdating := seekUpdating p |}.

Definition with_playing (b : bool) (p : Player) : Player :=
  {| queue := queue p; index := index p; playing := b; audioEl := audioEl p;
     currentSongId := currentSongId p; seekUpdating := seekUpdating p |}.

Definition with_audioEl (a : option Audio) (p : Player) : Player :=
  {| queue := queue p; index := index p; playing := playing p; audioEl := a;
     currentSongId := currentSongId p; seekUpdating := seekUpdating p |}.

Definition with_currentSongId (s : option string) (p : Player) : Player :=
  {| queue := queue p; index := index p; playing := playing p; audioEl := audioEl p;
     currentSongId := s; seekUpdating := seekUpdating p |}.

(** ** Handlers as state transformers that may throw

    A handler runs to completion on the single event-loop thread.  It
    either returns or throws; what it changed before throwing stays
    changed. *)

Inductive Completion (A : Type) : Type :=
| Return (a : A)
| Throw (e : Exn).
Arguments Return {A} a.
Arguments Throw {A} e.

Definition M (A : Type) : Type := World -> Completion A * World.

#[global] Instance M_ret : MRet M := fun A a w => (Return a, w).

#[global] Instance M_bind : MBind M := fun A B f m w =>
  match m w with
  | (Return a, w') => f a w'
  | (Throw e, w') => (Throw e, w')
  end.

Definition get : M World := fun w => (Return w, w).
Definition update (f : World -> World) : M unit := fun w => (Return tt, f w).
Definition throw {A} (e : Exn) : M A := fun w => (Throw e, w).
Definition emit (e : Effect) : M unit := update (fun w => with_trace (trace w ++ [e]) w).
Definition update_meta (f : Meta -> Meta) : M unit := update (fun w => with_meta (f (meta w)) w).
Definition update_player (f : Player -> Player) : M unit :=
  update (fun w => with_player (f (player w)) w).

(** The world that a handler leaves. *)
Definition exec {A} (m : M A) (w : World) : World := snd (m w).

Definition toast (msg : string) : M unit := emit (Toast msg).

(** [saveMeta(m)] on the in-memory document. *)
Definition saveMeta : M unit := w ← get; emit (Saved (meta w)).

(** ** Arrays of strings *)

(** [arr.includes(x)] *)
Definition includes (arr : list string) (x : string) : bool :=
  existsb (String.eqb x) arr.

(** [arr.indexOf(x)]: the first position of [x], or -1. *)
Fixpoint indexOf (arr : list string) (x : string) : Z :=
  match arr with
  | [] => -1
  | y :: rest =>
      if String.eqb y x then 0
      else let i := indexOf rest x in if i <? 0 then -1 else i + 1
  end.

(** [q.indexOf(songId) >= 0 ? q.indexOf(songId) : 0] *)
Definition index_in (q : list string) (songId : string) : Z :=
  if 0 <=? indexOf q songId then indexOf q songId else 0.

(** [arr[i]] for an integer [i]: [undefined] out of range. *)
Definition at_index (arr : list string) (i : Z) : option string :=
  if i <? 0 then None else arr !! Z.to_nat i.

(** [arr.splice(i, 1)] for [i >= 0]. *)
Definition splice1 (arr : list string) (i : Z) : list string :=
  delete (Z.to_nat i) arr.

(** [while (arr.length > n) arr.pop();] *)
Fixpoint pops (k : nat) (arr : list string) : list string :=
  match k with
  | O => arr
  | S k' => pops k' (removelast arr)
  end.

Definition pop_while_longer (n : nat) (arr : list string) : list string :=
  pops (length arr - n) arr.

(** [Array.from(new Set(arr))]: a Set keeps each value once, in the
    order of first insertion. *)
Definition Set_add (s : list string) (x : string) : list string :=
  if includes s x then s else s ++ [x].

Definition Array_from_Set (arr : list string) : list string :=
  fold_left Set_add arr [].

(** [a % b] on integers: the sign follows the dividend. *)
Definition js_rem (a b : Z) : Z := Z.rem a b.

(** ** Bootstrap and accounts *)

Definition is_named (nm : string) (u : User) : bool := String.eqb (username u) nm.

(** [m.nextIds.user++]: reading [user] of an absent [nextIds] throws. *)
Definition next_user_id : M Z :=
  w ← get;
  match nextIds (meta w) with
  | None => throw TypeError
  | Some ids =>
      update_meta (with_nextIds (Some (with_next_user (next_user ids + 1) ids)));;
      mret (next_user ids)
  end.

Definition push_user (u : User) : M unit :=
  update_meta (fun m => with_users (users m ++ [u]) m).

(** [now] is the value of [Date.now()]. *)
Definition ensureSuperAdmin (now : Z) : M unit :=
  w ← get;
  match List.find (is_named "RankRates") (users (meta w)) with
  | Some _ => mret tt
  | None =>
      id ← next_user_id;
      let su := {| user_id := id; username := "RankRates"; password := "Rank1250";
                   displayName := "RankRates"; bio := "Super admin";
                   verified := true; superAdmin := true;
                   imageAssetId := None; createdAt := now |} in
      push_user su;;
      saveMeta;;
      toast "SuperAdmin created: RankRates"
  end.

(** [{ok:true, user}] or [{ok:false, msg}] *)
Inductive AuthResult :=
| AuthOk (user : User)
| AuthFailed (msg : string).

Definition registerUser (uname pwd dname : string) (now : Z) : M AuthResult :=
  w ← get;
  match List.find (is_named uname) (users (meta w)) with
  | Some _ => mret (AuthFailed "Username exists")
  | None =>
      id ← next_user_id;
      let user := {| user_id := id; username := uname; password := pwd;
                     displayName := (if String.eqb dname EmptyString then uname else dname);
                     bio := EmptyString; verified := false; superAdmin := false;
                     imageAssetId := None; createdAt := now |} in
      push_user user;;
      saveMeta;;
      mret (AuthOk user)
  end.

Definition has_credentials (uname pwd : string) (u : User) : bool :=
  String.eqb (username u) uname && String.eqb (password u) pwd.

Definition loginUser (uname pwd : string) : M AuthResult :=
  w ← get;
  match List.find (has_credentials uname pwd) (users (meta w)) with
  | None => mret (AuthFailed "Invalid credentials")
  | Some user =>
      update (with_currentUser (Some user));;
      emit RenderedAuthArea;;
      toast ("Signed in as " +:+ displayName user);;
      mret (AuthOk user)
  end.

(** ** Follow and unfollow

    [m.followers] is a plain object used as a map from usernames to
    arrays.  A key that is not an own property but is defined by
    [Object.prototype] reads as that inherited member, which is truthy
    and is not an array. *)

Definition Object_prototype_keys : list string :=
  ["constructor"; "hasOwnProperty"; "isPrototypeOf"; "propertyIsEnumerable";
   "toLocaleString"; "toString"; "valueOf"; "__proto__";
   "__defineGetter__"; "__defineSetter__"; "__lookupGetter__"; "__lookupSetter__"].

Inductive Slot :=
| Own (arr : list string)
| Inherited
| Undefined.

(** [m.followers[k]] *)
Definition followers_at (m : Meta) (k : string) : Slot :=
  match followers m !! k with
  | Some arr => Own arr
  | None => if includes Object_prototype_keys k then Inherited else Undefined
  end.

(** [m.followers[k] = arr] *)
Definition set_followers (k : string) (arr : list string) : M unit :=
  update_meta (fun m => with_followers (<[k := arr]> (followers m)) m).

Definition followUser (targetUsername : string) : M unit :=
  w ← get;
  match currentUser w with
  | None => toast "Login first"
  | Some me =>
      match followers_at (meta w) targetUsername with
      | Undefined => set_followers targetUsername []
      | _ => mret tt
      end;;
      w1 ← get;
      match followers_at (meta w1) targetUsername with
      | Own arr =>
          (if includes arr (username me) then mret tt
           else set_followers targetUsername (arr ++ [username me]));;
          saveMeta
      | _ => throw TypeError   (* [arr.includes] is not a function *)
      end
  end.

Definition unfollowUser (targetUsername : string) : M unit :=
  w ← get;
  match currentUser w with
  | None => toast "Login first"
  | Some me =>
      match followers_at (meta w) targetUsername with
      | Inherited => throw TypeError   (* [arr.indexOf] is not a function *)
      | slot =>
          let arr := match slot with Own a => a | _ => [] end in
          let idx := indexOf arr (username me) in
          let arr := if 0 <=? idx then splice1 arr idx else arr in
          set_followers targetUsername arr;;
          saveMeta
      end
  end.

(** The follower set of a user, as the artist page reads it:
    [state.meta.followers[username] || []]. *)
Definition followers_of (m : Meta) (k : string) : list string :=
  default [] (followers m !! k).

(** ** Player engine *)

(** How a promise settles. *)
Inductive Settled (A : Type) : Type :=
| Fulfilled (a : A)
| Rejected.
Arguments Fulfilled {A} a.
Arguments Rejected {A}.

(** A [playSong] call suspended at an [await]: the variables its
    closure holds.  [pending_audio] tells whether the [audio] it
    captured from [state.player.audioEl] is an element or null. *)
Record Pending := {
  pending_songId : string;
  pending_queue : option (list string);
  pending_song : Song;
  pending_audio : bool }.

Definition has_id (songId : string) (s : Song) : bool := String.eqb (song_id s) songId.

(** The [catch] block of [playSong]. *)
Definition playSong_catch : M unit := emit ConsoleError;; toast "Playback error".

(** [playSong(songId, contextQueue)] up to [await idbGet(song.assetId)].
    [None]: the call is over. *)
Definition playSong (songId : string) (contextQueue : option (list string))
  : M (option Pending) :=
  w ← get;
  match List.find (has_id songId) (songs (meta w)) with
  | None => toast "Song missing";; mret None
  | Some song =>
      mret (Some {| pending_songId := songId; pending_queue := contextQueue;
                    pending_song := song;
                    pending_audio := bool_decide (is_Some (audioEl (player w))) |})
  end.

(** [playSong(undefined, q)], as called with [q[idx]] out of range: no
    song has the id [undefined]. *)
Definition playSong_at (elem : option string) (q : list string) : M (option Pending) :=
  match elem with
  | Some songId => playSong songId (Some q)
  | None => toast "Song missing";; mret None
  end.

(** From the settling of [idbGet] to [await audio.play()]. *)
Definition playSong_onBlob (p : Pending) (r : Settled (option Blob)) : M (option Pending) :=
  match r with
  | Rejected => playSong_catch;; mret None
  | Fulfilled None => toast "Audio blob missing";; mret None
  | Fulfilled (Some blob) =>
      if pending_audio p then
        update_player (with_audioEl (Some {| src := Some blob |}));;
        mret (Some p)
      else playSong_catch;; mret None   (* [audio.src = url] on null *)
  end.

(** The update of [recentlyPlayed] made by [playSong]. *)
Definition mark_recently_played (songId : string) (old : option (list string)) : list string :=
  let rp := default [] old in
  let rp := songId :: rp in
  let rp := pop_while_longer 50 rp in
  Array_from_Set rp.

(** From the settling of [audio.play()] to the end of the call.  The
    page is taken to hold the player controls, so [updatePlayerUI] only
    renders. *)
Definition playSong_onPlay (p : Pending) (r : Settled unit) : M unit :=
  match r with
  | Rejected => playSong_catch
  | Fulfilled _ =>
      let songId := pending_songId p in
      update_player (with_playing true);;
      update_player (with_currentSongId (Some songId));;
      match pending_queue p with
      | Some q => update_player (with_queue q)
      | None => mret tt
      end;;
      update_player (fun pl => with_index (index_in (queue pl) songId) pl);;
      emit (UpdatedPlayerUI (pending_song p));;
      update_meta (fun m =>
        with_recentlyPlayed (Some (mark_recently_played songId (recentlyPlayed m))) m);;
      saveMeta
  end.

(** A whole [playSong] call with no other handler running in between:
    [idbGet] reads the asset store, and [hw] says how [audio.play()]
    settles. *)
Definition play (songId : string) (contextQueue : option (list string))
    (hw : Settled unit) : M unit :=
  p ← playSong songId contextQueue;
  match p with
  | None => mret tt
  | Some p =>
      w ← get;
      p' ← playSong_onBlob p (Fulfilled (assets w !! assetId (pending_song p)));
      match p' with
      | None => mret tt
      | Some p' => playSong_onPlay p' hw
      end
  end.

Definition playNext : M (option Pending) :=
  w ← get;
  let q := queue (player w) in
  let idx := index (player w) in
  if Z.of_nat (length q) =? 0 then mret None
  else
    let idx := js_rem (idx + 1) (Z.of_nat (length q)) in
    update_player (with_index idx);;
    playSong_at (at_index q idx) q.

Definition playPrev : M (option Pending) :=
  w ← get;
  let q := queue (player w) in
  let idx := index (player w) in
  if Z.of_nat (length q) =? 0 then mret None
  else
    let idx := js_rem (idx - 1 + Z.of_nat (length q)) (Z.of_nat (length q)) in
    update_player (with_index idx);;
    playSong_at (at_index q idx) q.

(** The update of [recentlyPlayed] in the order the specification
    words it: prepend, dedupe, cap at 50.  Used only to compare with
    [mark_recently_played]. *)
Definition spec_prepend_dedupe_cap (songId : string) (old : option (list string))
  : list string :=
  take 50 (Array_from_Set (songId :: default [] old)).

(** [recentlyPlayed] is absent, or holds at most 50 ids without
    duplicates. *)
Definition rp_ok (rp : option (list string)) : Prop :=
  match rp with
  | None => True
  | Some l => (length l <= 50)%nat ∧ NoDup l
  end.

(** A [playSong] call with what the hardware does for it. *)
Record Call := {
  call_songId : string;
  call_queue : option (list string);
  call_hw : Settled unit }.

Definition run_call (c : Call) (w : World) : World :=
  snd (play (call_songId c) (call_queue c) (call_hw c) w).

Definition run_calls (cs : list Call) (w : World) : World :=
  fold_left (fun w c => run_call c w) cs w.

(** The call finds its song, its blob and an audio element, and the
    hardware starts playing. *)
Definition plays (songId : string) (hw : Settled unit) (w : World) : bool :=
  match List.find (has_id songId) (songs (meta w)) with
  | None => false
  | Some song =>
      bool_decide (is_Some (assets w !! assetId song))
      && bool_decide (is_Some (audioEl (player w)))
      && match hw with Fulfilled _ => true | Rejected => false end
  end.

(** The engine is idle: no current song. *)
Definition idle (w : World) : Prop := currentSongId (player w) = None.

(** A click on entry [i] of the queue panel:
    [state.player.index = i; playSong(sid, q)]. *)
Definition queue_entry_click (i : nat) (sid : string) (q : list string)
  : M (option Pending) :=
  update_player (with_index (Z.of_nat i));;
  playSong sid (Some q).

(** One handler of the engine running to completion: the start of a
    [playSong] call, the resumption of a suspended call with any
    outcome, [playNext], [playPrev] or a click in the queue panel. *)
Inductive engine_step (w : World) : World -> Prop :=
| step_playSong songId cq : engine_step w (exec (playSong songId cq) w)
| step_onBlob p r : engine_step w (exec (playSong_onBlob p r) w)
| step_onPlay p r : engine_step w (exec (playSong_onPlay p r) w)
| step_playNext : engine_step w (exec playNext w)
| step_playPrev : engine_step w (exec playPrev w)
| step_queue_entry i sid q : engine_step w (exec (queue_entry_click i sid q) w).

Definition engine_inv (w : World) : Prop :=
  0 <= index (player w) ∧ rp_ok (recentlyPlayed (meta w)).

(** The credentials [uname], [pwd] are those of a stored user. *)
Definition registered (w : World) (uname pwd : string) : Prop :=
  ∃ u, u ∈ users (meta w) ∧ username u = uname ∧ password u = pwd.

(** The users called "RankRates". *)
Definition admins (m : Meta) : list User := List.filter (is_named "RankRates") (users m).

(** ** Further handlers of the script *)

Definition with_assets (a : gmap string Blob) (w : World) : World :=
  {| meta := meta w; currentUser := currentUser w; player := player w;
     assets := a; trace := trace w |}.

Definition with_songs (l : list Song) (m : Meta) : Meta :=
  {| users := users m; songs := l; albums := albums m; playlists := playlists m;
     likes := likes m; followers := followers m;
     recentlyPlayed := recentlyPlayed m; nextIds := nextIds m |}.

Definition with_albums (l : list Album) (m : Meta) : Meta :=
  {| users := users m; songs := songs m; albums := l; playlists := playlists m;
     likes := likes m; followers := followers m;
     recentlyPlayed := recentlyPlayed m; nextIds := nextIds m |}.

Definition with_playlists (l : list Playlist) (m : Meta) : Meta :=
  {| users := users m; songs := songs m; albums := albums m; playlists := l;
     likes := likes m; followers := followers m;
     recentlyPlayed := recentlyPlayed m; nextIds := nextIds m |}.

Definition with_next_song (n : Z) (ids : NextIds) : NextIds :=
  {| next_song := n; next_album := next_album ids;
     next_playlist := next_playlist ids; next_user := next_user ids |}.

Definition with_next_album (n : Z) (ids : NextIds) : NextIds :=
  {| next_song := next_song ids; next_album := n;
     next_playlist := next_playlist ids; next_user := next_user ids |}.

Definition with_next_playlist (n : Z) (ids : NextIds) : NextIds :=
  {| next_song := next_song ids; next_album := next_album ids;
     next_playlist := n; next_user := next_user ids |}.

(** [m.nextIds.song++], [m.nextIds.album++], [m.nextIds.playlist++] *)
Definition next_song_id : M Z :=
  w ← get;
  match nextIds (meta w) with
  | None => throw TypeError
  | Some ids =>
      update_meta (with_nextIds (Some (with_next_song (next_song ids + 1) ids)));;
      mret (next_song ids)
  end.

Definition next_album_id : M Z :=
  w ← get;
  match nextIds (meta w) with
  | None => throw TypeError
  | Some ids =>
      update_meta (with_nextIds (Some (with_next_album (next_album ids + 1) ids)));;
      mret (next_album ids)
  end.

Definition next_playlist_id : M Z :=
  w ← get;
  match nextIds (meta w) with
  | None => throw TypeError
  | Some ids =>
      update_meta (with_nextIds (Some (with_next_playlist (next_playlist ids + 1) ids)));;
      mret (next_playlist ids)
  end.

(** An integer inside a template literal: its decimal digits (JavaScript
    prints integers so below 10^21). *)
Definition digits (n : Z) : string := pretty n.

(** *** Blob store

    The object store keeps records [{id, blob}] under the key [id]; the
    model follows the transactions that complete. *)

Definition idbPut (id : string) (blob : Blob) : M bool :=
  update (fun w => with_assets (<[id := blob]> (assets w)) w);;
  mret true.

(** [req.result ? req.result.blob : null] *)
Definition idbGet (id : string) : M (option Blob) :=
  w ← get;
  mret (assets w !! id).

Definition idbDelete (id : string) : M bool :=
  update (fun w => with_assets (delete id (assets w)) w);;
  mret true.

Inductive BlobOp :=
| OpPut (id : string) (blob : Blob)
| OpGet (id : string)
| OpDelete (id : string).

Definition run_blob_op (op : BlobOp) (w : World) : World :=
  match op with
  | OpPut id blob => exec (idbPut id blob) w
  | OpGet id => exec (idbGet id) w
  | OpDelete id => exec (idbDelete id) w
  end.

Definition run_blob_ops (ops : list BlobOp) (w : World) : World :=
  fold_left (fun w op => run_blob_op op w) ops w.

(** What the latest put or delete of [id] in [ops] left under [id];
    [None] when [ops] has neither. *)
Fixpoint last_write (id : string) (ops : list BlobOp) : option (option Blob) :=
  match ops with
  | [] => None
  | op :: rest =>
      match last_write id rest with
      | Some r => Some r
      | None =>
          match op with
          | OpPut id' blob => if String.eqb id' id then Some (Some blob) else None
          | OpDelete id' => if String.eqb id' id then Some None else None
          | OpGet _ => None
          end
      end
  end.

(** *** Session *)

Definition logoutUser : M unit :=
  update (with_currentUser None);;
  emit RenderedAuthArea;;
  toast "Logged out".

(** *** Playlists *)

Definition createPlaylist (nm ownerUsername : string) (isPrivate : bool) (now : Z)
  : M Playlist :=
  n ← next_playlist_id;
  let pl := {| playlist_id := "playlist_" +:+ digits n; name := nm;
               owner := ownerUsername; playlist_tracks := [];
               playlist_coverAssetId := None; private := isPrivate;
               sharedWith := []; playlist_createdAt := now |} in
  update_meta (fun m => with_playlists (playlists m ++ [pl]) m);;
  saveMeta;;
  mret pl.




(** *** Clicks that start playback *)

(** A "Daily Mix" card, [i] from 0 to 3:
    [q = songs.map(s => s.id); if (q.length) playSong(q[i % q.length], q)]. *)
Definition daily_mix_click (i : Z) : M (option Pending) :=
  w ← get;
  let q := List.map song_id (songs (meta w)) in
  if Z.of_nat (length q) =? 0 then mret None
  else playSong_at (at_index q (js_rem i (Z.of_nat (length q)))) q.

(** A double click on the card of song [s]: the queue is every song. *)
Definition song_card_dblclick (s : Song) : M (option Pending) :=
  w ← get;
  playSong (song_id s) (Some (List.map song_id (songs (meta w)))).

(** The rest of a [playSong] call after its start, with no other
    handler in between (as in [play]). *)
Definition settle (p : option Pending) (hw : Settled unit) : M unit :=
  match p with
  | None => mret tt
  | Some p =>
      w ← get;
      p' ← playSong_onBlob p (Fulfilled (assets w !! assetId (pending_song p)));
      match p' with
      | None => mret tt
      | Some p' => playSong_onPlay p' hw
      end
  end.

(** The "next" button, or the [ended] event, run to completion. *)
Definition next_track (hw : Settled unit) : M unit :=
  p ← playNext;
  settle p hw.

Definition prev_track (hw : Settled unit) : M unit :=
  p ← playPrev;
  settle p hw.

(** *** Sample content *)

Definition push_song (s : Song) : M unit :=
  update_meta (fun m => with_songs (songs m ++ [s]) m).

Definition push_album (a : Album) : M unit :=
  update_meta (fun m => with_albums (albums m ++ [a]) m).


(** *** escapeHtml *)

(** The double quote character. *)
Definition dquote : ascii := ascii_of_nat 34.

(** What the regular expression and its table make of one character:
    the ampersand, the angle brackets, the double quote and the
    apostrophe become entities, any other character stays. *)
Definition escape_char (c : ascii) : string :=
  if Ascii.eqb c "&" then "&amp;"
  else if Ascii.eqb c "<" then "&lt;"
  else if Ascii.eqb c ">" then "&gt;"
  else if Ascii.eqb c dquote then "&quot;"
  else if Ascii.eqb c "'" then "&#39;"
  else String c EmptyString.

Fixpoint replace_special (s : string) : string :=
  match s with
  | EmptyString => EmptyString
  | String c rest => escape_char c +:+ replace_special rest
  end.

(** [escapeHtml(s)]: [(s||'').replace(...)]; [None] is null or
    undefined. *)
Definition escapeHtml (s : option string) : string :=
  replace_special (default EmptyString s).

(** The characters of a string. *)
Fixpoint chars (s : string) : list ascii :=
  match s with
  | EmptyString => []
  | String c rest => c :: chars rest
  end.

(** The characters that must not reach the markup unescaped, and all
    the characters that are replaced. *)
Definition markup_chars : list ascii := ["<"; ">"; dquote; "'"]%char.

Definition special_chars : list ascii := ("&" :: markup_chars)%char.

(** *** Consistency of the accounts *)

(** No two users share a username. *)
Definition usernames_unique (m : Meta) : Prop :=
  NoDup (List.map username (users m)).


(** The user that [registerUser] builds. *)
Definition new_user (id : Z) (uname pwd dname : string) (now : Z) : User :=
  {| user_id := id; username := uname; password := pwd;
     displayName := (if String.eqb dname EmptyString then uname else dname);
     bio := EmptyString; verified := false; superAdmin := false;
     imageAssetId := None; createdAt := now |}.

(** The document after a registration that goes through. *)
Definition registered_meta (u : User) (ids : NextIds) (m : Meta) : Meta :=
  with_users (users m ++ [u])
    (with_nextIds (Some (with_next_user (next_user ids + 1) ids)) m).

(** ** Sample states *)

(** An older document: the six collections of the first version, no
    [recentlyPlayed], no [nextIds]. *)
Definition older_document : JSValue :=
  JObj [ ("users", JArr [] []); ("songs", JArr [] []); ("albums", JArr [] []);
         ("playlists", JArr [] []); ("likes", JObj []); ("followers", JObj []) ].


(** [defaultMeta()] as a record. *)
Definition initial_meta : Meta :=
  {| users := []; songs := []; albums := []; playlists := [];
     likes := ∅; followers := ∅; recentlyPlayed := Some [];
     nextIds := Some {| next_song := 1; next_album := 1;
                        next_playlist := 1; next_user := 1 |} |}.

(** The [player] of the initial [state]. *)
Definition initial_player : Player :=
  {| queue := []; index := 0; playing := false; audioEl := None;
     currentSongId := None; seekUpdating := false |}.

Definition initial_world : World :=
  {| meta := initial_meta; currentUser := None; player := initial_player;
     assets := ∅; trace := [] |}.

Definition bob : User :=
  {| user_id := 1; username := "bob"; password := "pw"; displayName := "Bob";
     bio := EmptyString; verified := false; superAdmin := false;
     imageAssetId := None; createdAt := 0 |}.

Definition world_with_bob : World :=
  with_meta (with_users [bob] initial_meta) initial_world.

Definition bob_signed_in : World := with_currentUser (Some bob) world_with_bob.

(** An ordinary account that took the administrator's name. *)
Definition plain_RankRates : User :=
  {| user_id := 1; username := "RankRates"; password := "pw"; displayName := "Bob";
     bio := EmptyString; verified := false; superAdmin := false;
     imageAssetId := None; createdAt := 0 |}.

Definition world_with_bob_as_RankRates : World :=
  with_meta (with_users [plain_RankRates] initial_meta) initial_world.

Definition demo_song (id : string) : Song :=
  {| song_id := id; title := "Demo Track"; artist := "RankRates";
     albumId := "album_1"; duration := 3; assetId := "audio:" +:+ id;
     coverAssetId := "image:album:album_1"; genre := "Electronic";
     language := "English"; explicit := false; uploadedBy := "RankRates" |}.

Definition demo_blob : Blob := {| blob_type := "audio/wav"; blob_data := [82; 73; 70; 70] |}.

(** Two songs in the document, the audio of the first one only in the
    asset store, the player initialised and playing nothing, with an
    earlier queue. *)
Definition demo_world : World :=
  {| meta := {| users := []; songs := [demo_song "song_1"; demo_song "song_2"];
                albums := []; playlists := []; likes := ∅; followers := ∅;
                recentlyPlayed := Some [];
                nextIds := Some {| next_song := 3; next_album := 2;
                                   next_playlist := 1; next_user := 1 |} |};
     currentUser := None;
     player := {| queue := ["song_1"]; index := 0; playing := false;
                  audioEl := Some {| src := None |}; currentSongId := None;
                  seekUpdating := false |};
     assets := {[ "audio:song_1" := demo_blob ]};
     trace := [] |}.

(** The ids [song_1 .. song_n], as the uploader numbers them. *)
Definition song_ids (n : nat) : list string :=
  List.map (fun k => "song_" +:+ pretty k) (seq 1 n).

(** [demo_world] after fifty different songs were played, [song_1] last. *)
Definition world_with_full_history : World :=
  with_meta (with_recentlyPlayed (Some (song_ids 50)) (meta demo_world)) demo_world.

(** [demo_world] with a queue of two songs and the cursor on the first. *)
Definition world_queue_of_two : World :=
  with_player (with_index 0 (with_queue ["song_2"; "song_1"] (player demo_world)))
    demo_world.

(** * Properties *)

(** ** Metadata store *)

Lemma own_get_set_same props k v : own_get (own_set props k v) k = Some v.
Proof.
  induction props as [|[k' v'] rest IH]; simpl.
  - by rewrite String.eqb_refl.
  - destruct (String.eqb k' k) eqn:E; simpl.
    + by rewrite String.eqb_refl.
    + by rewrite E.
Qed.

Lemma own_get_set_other props k v k' :
  k ≠ k' → own_get (own_set props k v) k' = own_get props k'.
Proof.
  intros Hne. induction props as [|[k0 v0] rest IH]; simpl.
  - destruct (String.eqb_spec k k'); [done | done].
  - destruct (String.eqb_spec k0 k) as [->|Hk0]; simpl.
    + destruct (String.eqb_spec k k'); [done | done].
    + destruct (String.eqb_spec k0 k'); [done | apply IH].
Qed.

Lemma migrate_object mode k e props :
  migrate mode k e (JObj props) = inr (JObj (fill k e props)).
Proof. unfold migrate, fill. simpl. by destruct (truthy (own_get props k)). Qed.

Lemma own_get_fill_same k e props :
  own_get (fill k e props) k
  = if truthy (own_get props k) then own_get props k else Some e.
Proof.
  unfold fill. destruct (truthy (own_get props k)); [done|].
  apply own_get_set_same.
Qed.

Lemma own_get_fill_other k e props k' :
  k ≠ k' → own_get (fill k e props) k' = own_get props k'.
Proof.
  intros Hne. unfold fill. destruct (truthy (own_get props k)); [done|].
  by apply own_get_set_other.
Qed.

Lemma migrations_object mode props :
  migrations mode (JObj props)
  = inr (JObj (fill "followers" (JObj [])
              (fill "likes" (JObj [])
              (fill "albums" (JArr [] [])
              (fill "playlists" (JArr [] [])
              (fill "songs" (JArr [] [])
              (fill "users" (JArr [] []) props))))))).
Proof. unfold migrations. by repeat (rewrite migrate_object; cbn [and_then]). Qed.

Lemma truthy_present (o : option JSValue) : truthy o = true → is_Some o.
Proof. destruct o; [eauto | discriminate]. Qed.

Lemma filled_present (o : option JSValue) (e : JSValue) :
  is_Some (if truthy o then o else Some e).
Proof. destruct (truthy o) eqn:E; [by apply truthy_present | eauto]. Qed.

Ltac fill_get :=
  repeat first [ rewrite own_get_fill_same | rewrite own_get_fill_other by done ].

(** What [loadMeta] adds to a stored object, key by key. *)
Lemma loadMeta_object mode props :
  ∃ props',
    loadMeta mode (Json (JObj props))
    = {| loaded_doc := JObj props'; loaded_store := Json (JObj props); loaded_log := [] |}
    ∧ (∀ k, In k migrated_keys →
         own_get props' k
         = if truthy (own_get props k) then own_get props k else Some (empty_for k))
    ∧ (∀ k, ¬ In k migrated_keys → own_get props' k = own_get props k).
Proof.
  eexists. split; [|split].
  - unfold loadMeta. cbn [JSON_parse and_then]. rewrite migrations_object. reflexivity.
  - intros k Hk. simpl in Hk.
    destruct Hk as [<-|[<-|[<-|[<-|[<-|[<-|[]]]]]]]; by fill_get.
  - intros k Hk. simpl in Hk.
    rewrite !own_get_fill_other; [done | ..];
      intros <-; apply Hk; repeat first [left; reflexivity | right].
Qed.

(** C1 (amended).  For a missing, blank, unparseable or null stored
    item, [loadMeta] returns the default document, in which all eight
    top-level collections are present and empty (the id counters at 1).
    For a stored object, such as an older document, it returns that
    object with [users], [songs], [playlists], [albums], [likes] and
    [followers] present: one that was absent or falsy is set to the
    empty collection, one that was there is kept.  [recentlyPlayed] is
    left as stored. *)
Theorem loadMeta_collections_present (mode : Mode) :
  all_present defaultMeta = true
  ∧ (∀ k, In k migrated_keys ∨ k = "recentlyPlayed" →
       get_prop defaultMeta k = inr (Some (empty_for k)))
  ∧ (∀ st, In st [NoItem; Blank; Garbled; Json JNull] →
       loaded_doc (loadMeta mode st) = defaultMeta)
  ∧ (∀ props, ∃ props',
       loaded_doc (loadMeta mode (Json (JObj props))) = JObj props'
       ∧ (∀ k, In k migrated_keys →
            present (JObj props') k = true
            ∧ own_get props' k
              = if truthy (own_get props k) then own_get props k
                else Some (empty_for k))
       ∧ own_get props' "recentlyPlayed" = own_get props "recentlyPlayed").
Proof.
  split; [reflexivity|]. split; [|split].
  - intros k [Hk| ->]; [|reflexivity]. simpl in Hk.
    destruct Hk as [<-|[<-|[<-|[<-|[<-|[<-|[]]]]]]]; reflexivity.
  - intros st Hst. simpl in Hst.
    destruct Hst as [<-|[<-|[<-|[<-|[]]]]]; reflexivity.
  - intros props. destruct (loadMeta_object mode props) as (props' & Hl & Hm & Ho).
    exists props'. rewrite Hl. split; [done|]. split.
    + intros k Hk. split; [|by apply Hm].
      unfold present. simpl. rewrite (Hm k Hk).
      by destruct (filled_present (own_get props k) (empty_for k)) as [x ->].
    + apply Ho. simpl. intros [H|[H|[H|[H|[H|[H|[]]]]]]]; discriminate H.
Qed.

Lemma loadMeta_collections_present_witness :
  loaded_doc (loadMeta Sloppy Garbled) = defaultMeta.
Proof.
  destruct (loadMeta_collections_present Sloppy) as (_ & _ & H & _).
  apply H. simpl. auto.
Defined.

(** C1, as stated, fails: loading the older document returns it without
    [recentlyPlayed] and without [nextIds], in either mode. *)
Lemma loadMeta_older_document_incomplete :
  loaded_doc (loadMeta Sloppy (Json older_document)) = older_document
  ∧ loaded_doc (loadMeta Strict (Json older_document)) = older_document
  ∧ present older_document "recentlyPlayed" = false
  ∧ present older_document "nextIds" = false
  ∧ all_present (loaded_doc (loadMeta Sloppy (Json older_document))) = false
  ∧ all_present (loaded_doc (loadMeta Strict (Json older_document))) = false.
Proof. repeat split; reflexivity. Qed.

(** C2 (amended).  When reading the stored item throws ([JSON.parse] on
    an unparseable text, or a migration line on what was parsed, as on
    null), [loadMeta] warns, returns the default document and writes it
    to the store before returning.  When the item is missing or blank,
    [loadMeta] returns the default document and writes nothing. *)
Theorem loadMeta_self_heal (mode : Mode) (st : Stored) :
  (st = Garbled ∨ (∃ v e, st = Json v ∧ migrations mode v = inl e) →
     loadMeta mode st
     = {| loaded_doc := defaultMeta; loaded_store := Json defaultMeta;
          loaded_log := [ConsoleWarn; SetItem defaultMeta] |})
  ∧ (st = NoItem ∨ st = Blank →
     loadMeta mode st
     = {| loaded_doc := defaultMeta; loaded_store := st; loaded_log := [] |}).
Proof.
  split.
  - intros [-> | (v & e & -> & Hv)]; [reflexivity|].
    unfold loadMeta. cbn [JSON_parse and_then]. rewrite Hv. reflexivity.
  - intros [-> | ->]; reflexivity.
Qed.

Lemma loadMeta_self_heal_witness :
  loaded_store (loadMeta Strict (Json JNull)) = Json defaultMeta.
Proof.
  destruct (loadMeta_self_heal Strict (Json JNull)) as [H _].
  rewrite H; [reflexivity|].
  right. exists JNull, TypeError. split; reflexivity.
Defined.

(** C2, as stated, fails: with no stored item, [loadMeta] returns the
    default document and the store still holds no item. *)
Lemma loadMeta_missing_not_persisted :
  loadMeta Sloppy NoItem
  = {| loaded_doc := defaultMeta; loaded_store := NoItem; loaded_log := [] |}
  ∧ loadMeta Strict NoItem
    = {| loaded_doc := defaultMeta; loaded_store := NoItem; loaded_log := [] |}
  ∧ NoItem ≠ Json defaultMeta.
Proof. split; [reflexivity|]. split; [reflexivity|]. discriminate. Qed.

(** ** Accounts *)

(** Unfolding of the handler monad. *)
Ltac run :=
  unfold exec, saveMeta, toast, emit, update_meta, update_player, push_user,
    set_followers, update, get, throw, mbind, M_bind, mret, M_ret;
  cbv beta iota zeta delta [fst snd pending_songId pending_queue pending_song
                             pending_audio].

Lemma find_named_Some (nm : string) (us : list User) (u : User) :
  u ∈ us → username u = nm → ∃ u', List.find (is_named nm) us = Some u'.
Proof.
  intros Hin Hnm. destruct (List.find (is_named nm) us) as [u'|] eqn:E; [eauto|].
  apply list_elem_of_In in Hin.
  pose proof (List.find_none _ _ E u Hin) as Hf.
  unfold is_named in Hf. rewrite Hnm, String.eqb_refl in Hf. discriminate.
Qed.

(** C7.  Registering a username that some user already has returns the
    failure "Username exists" and leaves the whole world as it was: the
    users and the rest of the document are unchanged, and nothing is
    saved (the trace is unchanged). *)
Theorem registerUser_existing_username
    (w : World) (uname pwd dname : string) (now : Z) :
  (∃ u, u ∈ users (meta w) ∧ username u = uname) →
  registerUser uname pwd dname now w = (Return (AuthFailed "Username exists"), w).
Proof.
  intros (u & Hin & Hnm).
  destruct (find_named_Some uname _ u Hin Hnm) as [u' Hf].
  unfold registerUser. run. rewrite Hf. reflexivity.
Qed.

Lemma has_credentials_true uname pwd u :
  has_credentials uname pwd u = true ↔ username u = uname ∧ password u = pwd.
Proof.
  unfold has_credentials. rewrite andb_true_iff, !String.eqb_eq. tauto.
Qed.

(** C6.  [loginUser] succeeds exactly when some stored user has that
    very username and that very password (string equality, so case
    matters): it then returns that user and makes it the current user,
    changing nothing in the document.  Otherwise it returns "Invalid
    credentials" and leaves the world, and so the current user, as it
    was. *)
Theorem loginUser_exact_match (w : World) (uname pwd : string) :
  (registered w uname pwd →
     ∃ user, user ∈ users (meta w) ∧ username user = uname ∧ password user = pwd
       ∧ loginUser uname pwd w
         = (Return (AuthOk user),
            with_trace (trace w ++ [RenderedAuthArea;
                                    Toast ("Signed in as " +:+ displayName user)])
              (with_currentUser (Some user) w)))
  ∧ (¬ registered w uname pwd →
     loginUser uname pwd w = (Return (AuthFailed "Invalid credentials"), w)).
Proof.
  unfold loginUser. run.
  destruct (List.find (has_credentials uname pwd) (users (meta w))) as [user|] eqn:E.
  - apply List.find_some in E as [Hin Hc].
    apply has_credentials_true in Hc as [Hu Hp]. apply list_elem_of_In in Hin.
    split.
    + intros _. exists user. repeat split; try done.
      unfold with_trace, with_currentUser; simpl. by rewrite <- app_assoc.
    + intros Hn. destruct Hn. by exists user.
  - split; [|done].
    intros (u & Hin & Hu & Hp). apply list_elem_of_In in Hin.
    pose proof (List.find_none _ _ E u Hin) as Hf.
    assert (has_credentials uname pwd u = true) by by apply has_credentials_true.
    congruence.
Qed.

Lemma registerUser_existing_username_witness :
  registerUser "bob" "other" "Bobby" 1 world_with_bob
  = (Return (AuthFailed "Username exists"), world_with_bob).
Proof.
  apply registerUser_existing_username.
  exists bob. split; [|reflexivity]. apply list_elem_of_here.
Defined.

Lemma loginUser_exact_match_witness :
  loginUser "Bob" "pw" world_with_bob
  = (Return (AuthFailed "Invalid credentials"), world_with_bob)
  ∧ fst (loginUser "bob" "pw" world_with_bob) = Return (AuthOk bob).
Proof.
  split.
  - apply loginUser_exact_match.
    intros (u & Hin & Hu & _). apply list_elem_of_In in Hin.
    destruct Hin as [<-|[]]. discriminate Hu.
  - destruct (loginUser_exact_match world_with_bob "bob" "pw") as [H _].
    destruct H as (user & Hin & _ & _ & ->).
    + exists bob. split; [apply list_elem_of_here | split; reflexivity].
    + apply list_elem_of_In in Hin. destruct Hin as [<-|[]]. reflexivity.
Defined.

(** ** Follow and unfollow *)

Lemma includes_elem_of (arr : list string) (x : string) :
  includes arr x = true ↔ x ∈ arr.
Proof.
  unfold includes. rewrite existsb_exists. split.
  - intros (y & Hin & Hy). apply String.eqb_eq in Hy as ->. by apply list_elem_of_In.
  - intros Hin. exists x. split; [by apply list_elem_of_In | apply String.eqb_refl].
Qed.

Lemma includes_false (arr : list string) (x : string) :
  includes arr x = false ↔ x ∉ arr.
Proof.
  rewrite <- includes_elem_of. destruct (includes arr x); split; done.
Qed.

Lemma includes_snoc (arr : list string) (x : string) : includes (arr ++ [x]) x = true.
Proof. apply includes_elem_of, elem_of_app. right. apply list_elem_of_here. Qed.

Lemma indexOf_not_elem (arr : list string) (x : string) :
  x ∉ arr → indexOf arr x = -1.
Proof.
  induction arr as [|y rest IH]; simpl; [done|].
  intros Hn. apply not_elem_of_cons in Hn as [Hne Hn].
  destruct (String.eqb_spec y x); [congruence|].
  rewrite (IH Hn). reflexivity.
Qed.

(** Where [indexOf] points when the value occurs: at its first
    occurrence. *)
Lemma indexOf_elem (arr : list string) (x : string) :
  x ∈ arr →
  0 <= indexOf arr x < Z.of_nat (length arr)
  ∧ arr !! Z.to_nat (indexOf arr x) = Some x
  ∧ ∀ j : nat, (j < Z.to_nat (indexOf arr x))%nat → arr !! j ≠ Some x.
Proof.
  induction arr as [|y rest IH]; [by intros ?%elem_of_nil|].
  intros Hin. cbn [indexOf length].
  destruct (String.eqb_spec y x) as [->|Hne].
  - split; [lia|]. split; [done|]. intros j Hj. simpl in Hj. lia.
  - apply elem_of_cons in Hin as [?|Hin]; [congruence|].
    destruct (IH Hin) as (Hr & Hl & Hf).
    destruct (Z.ltb_spec (indexOf rest x) 0); [lia|].
    split; [lia|]. split.
    + replace (Z.to_nat (indexOf rest x + 1)) with (S (Z.to_nat (indexOf rest x))) by lia.
      done.
    + intros [|j] Hj; simpl; [congruence|]. apply Hf. lia.
Qed.

Lemma followers_at_own (m : Meta) (k : string) (arr : list string) :
  followers m !! k = Some arr → followers_at m k = Own arr.
Proof. unfold followers_at. by intros ->. Qed.

Lemma followers_at_inserted (m : Meta) (k : string) (arr : list string) :
  followers_at (with_followers (<[k := arr]> (followers m)) m) k = Own arr.
Proof. apply followers_at_own. simpl. apply lookup_insert_eq. Qed.

(** The document after [followUser] by a signed-in user. *)
Lemma followUser_meta (w : World) (me : User) (target : string) :
  currentUser w = Some me →
  currentUser (exec (followUser target) w) = Some me
  ∧ match followers_at (meta w) target with
    | Inherited => exec (followUser target) w = w
    | Undefined =>
        meta (exec (followUser target) w)
        = with_followers (<[target := [username me]]> (followers (meta w))) (meta w)
    | Own arr =>
        meta (exec (followUser target) w)
        = if includes arr (username me) then meta w
          else with_followers (<[target := arr ++ [username me]]> (followers (meta w)))
                 (meta w)
    end.
Proof.
  intros Hme. unfold followUser. run. rewrite Hme.
  destruct (followers_at (meta w) target) as [arr| |] eqn:Hslot; run.
  - rewrite Hslot. destruct (includes arr (username me)); run; by rewrite ?Hme.
  - rewrite Hslot. done.
  - cbn [meta with_meta]. rewrite followers_at_inserted. run.
    cbn [includes existsb meta with_meta currentUser with_trace app].
    split; [done|]. unfold with_followers; cbn [followers users songs albums
      playlists likes recentlyPlayed nextIds]. by rewrite insert_insert_eq.
Qed.

(** C9.  For a signed-in user, following a target a second time leaves
    the document, and so the target's follower set, as the first call
    left it; after a call that does not throw the user is among the
    target's followers.  Unfollowing a target that the user does not
    follow leaves the target's follower set unchanged. *)
Theorem follow_idempotent_unfollow_noop (w : World) (me : User) (target : string) :
  currentUser w = Some me →
  let once := exec (followUser target) w in
  let twice := exec (followUser target) once in
  meta twice = meta once
  ∧ followers_of (meta twice) target = followers_of (meta once) target
  ∧ (followers_at (meta w) target ≠ Inherited →
       username me ∈ followers_of (meta once) target)
  ∧ (username me ∉ followers_of (meta w) target →
       followers_of (meta (exec (unfollowUser target) w)) target
       = followers_of (meta w) target).
Proof.
  intros Hme once twice.
  destruct (followUser_meta w me target Hme) as [Hme1 H1]. fold once in Hme1, H1.
  destruct (followUser_meta once me target Hme1) as [_ H2]. fold twice in H2.
  assert (Hidem : meta twice = meta once).
  { destruct (followers_at (meta w) target) as [arr| |] eqn:Hslot.
    - destruct (includes arr (username me)) eqn:Hinc.
      + rewrite H1, Hslot, Hinc in H2. congruence.
      + rewrite (followers_at_own (meta once) target (arr ++ [username me])) in H2.
        * by rewrite includes_snoc in H2.
        * rewrite H1. simpl. apply lookup_insert_eq.
    - rewrite H1, Hslot in H2. congruence.
    - rewrite (followers_at_own (meta once) target [username me]) in H2.
      + pose proof (includes_snoc [] (username me)) as Hinc. simpl app in Hinc.
        by rewrite Hinc in H2.
      + rewrite H1. simpl. apply lookup_insert_eq. }
  split; [done|]. split; [by rewrite Hidem|]. split.
  - intros Hni. unfold followers_of.
    destruct (followers_at (meta w) target) as [arr| |] eqn:Hslot; [|done|].
    + destruct (includes arr (username me)) eqn:Hinc; rewrite H1.
      * unfold followers_at in Hslot.
        destruct (followers (meta w) !! target) as [arr'|] eqn:Hl.
        -- injection Hslot as ->. simpl. by apply includes_elem_of.
        -- by destruct (includes Object_prototype_keys target).
      * simpl. rewrite lookup_insert_eq. simpl.
        apply elem_of_app. right. apply list_elem_of_here.
    + rewrite H1. simpl. rewrite lookup_insert_eq. simpl. apply list_elem_of_here.
  - intros Hnot. unfold unfollowUser. run. rewrite Hme.
    unfold followers_of in *. unfold followers_at.
    destruct (followers (meta w) !! target) as [arr|] eqn:Hl; simpl in Hnot.
    + rewrite (indexOf_not_elem arr (username me) Hnot). simpl.
      by rewrite lookup_insert_eq.
    + destruct (includes Object_prototype_keys target); simpl.
      * by rewrite Hl.
      * by rewrite lookup_insert_eq.
Qed.

Lemma follow_idempotent_unfollow_noop_witness :
  followers_of (meta (exec (followUser "alice")
                        (exec (followUser "alice") bob_signed_in))) "alice"
  = followers_of (meta (exec (followUser "alice") bob_signed_in)) "alice".
Proof.
  destruct (follow_idempotent_unfollow_noop bob_signed_in bob "alice" eq_refl)
    as (_ & H & _).
  exact H.
Defined.

Example follow_then_unfollow :
  followers_of (meta (exec (followUser "alice") bob_signed_in)) "alice" = ["bob"]
  ∧ followers_of (meta (exec (unfollowUser "alice")
                          (exec (followUser "alice") bob_signed_in))) "alice" = []
  ∧ fst (followUser "alice" world_with_bob) = Return tt
  ∧ trace (exec (followUser "alice") world_with_bob) = [Toast "Login first"]
  ∧ fst (followUser "toString" bob_signed_in) = Throw TypeError.
Proof. repeat split; vm_compute; reflexivity. Qed.

(** ** Bootstrap *)

Lemma find_none_filter {A} (p : A → bool) (l : list A) :
  List.find p l = None → List.filter p l = [].
Proof.
  induction l as [|a l IH]; simpl; [done|].
  destruct (p a); [discriminate | exact IH].
Qed.

(** C10 (amended).  On a document that has id counters and no user
    called "RankRates", [ensureSuperAdmin] appends one, with [superAdmin]
    and [verified] true, saves the document, and that user is then the
    only one of that name.  On a document that already has a user of
    that name, it changes nothing: no duplicate is added and the
    existing user is kept as it is.  Running it a second time, on any
    state, changes nothing. *)
Theorem ensureSuperAdmin_bootstrap (w : World) (now : Z) :
  (∀ ids, List.find (is_named "RankRates") (users (meta w)) = None →
          nextIds (meta w) = Some ids →
     ∃ su, fst (ensureSuperAdmin now w) = Return tt
       ∧ users (meta (exec (ensureSuperAdmin now) w)) = users (meta w) ++ [su]
       ∧ username su = "RankRates" ∧ superAdmin su = true ∧ verified su = true
       ∧ user_id su = next_user ids
       ∧ admins (meta (exec (ensureSuperAdmin now) w)) = [su]
       ∧ In (Saved (meta (exec (ensureSuperAdmin now) w)))
            (trace (exec (ensureSuperAdmin now) w)))
  ∧ (∀ u, u ∈ users (meta w) → username u = "RankRates" →
       ensureSuperAdmin now w = (Return tt, w))
  ∧ (∀ now', exec (ensureSuperAdmin now') (exec (ensureSuperAdmin now) w)
             = exec (ensureSuperAdmin now) w).
Proof.
  assert (Hkeep : ∀ w0 t u, u ∈ users (meta w0) → username u = "RankRates" →
                    ensureSuperAdmin t w0 = (Return tt, w0)).
  { intros w0 t u Hin Hu. destruct (find_named_Some _ _ u Hin Hu) as [u' Hf].
    unfold ensureSuperAdmin. run. by rewrite Hf. }
  assert (Hnew : ∀ ids, List.find (is_named "RankRates") (users (meta w)) = None →
          nextIds (meta w) = Some ids →
     ∃ su, fst (ensureSuperAdmin now w) = Return tt
       ∧ users (meta (exec (ensureSuperAdmin now) w)) = users (meta w) ++ [su]
       ∧ username su = "RankRates" ∧ superAdmin su = true ∧ verified su = true
       ∧ user_id su = next_user ids
       ∧ admins (meta (exec (ensureSuperAdmin now) w)) = [su]
       ∧ In (Saved (meta (exec (ensureSuperAdmin now) w)))
            (trace (exec (ensureSuperAdmin now) w))).
  { intros ids Hnone Hids. eexists.
    unfold ensureSuperAdmin, next_user_id. run. rewrite Hnone. run. rewrite Hids. run.
    cbn [meta with_meta with_trace users with_users with_nextIds trace].
    split; [reflexivity|]. split; [reflexivity|]. do 4 (split; [reflexivity|]).
    split.
    + unfold admins. cbn [users with_users]. rewrite List.filter_app.
      rewrite (find_none_filter _ _ Hnone). reflexivity.
    + apply in_or_app. left. apply in_or_app. right. left. reflexivity. }
  split; [exact Hnew|split].
  - intros u Hin Hu. by apply (Hkeep w now u).
  - intros now'.
    destruct (List.find (is_named "RankRates") (users (meta w))) as [u|] eqn:Hf.
    + apply List.find_some in Hf as [Hin Hu]. apply list_elem_of_In in Hin.
      apply String.eqb_eq in Hu.
      unfold exec. rewrite (Hkeep w now u Hin Hu). simpl.
      by rewrite (Hkeep w now' u Hin Hu).
    + destruct (nextIds (meta w)) as [ids|] eqn:Hids.
      * destruct (Hnew ids eq_refl eq_refl) as (su & _ & Hus & Hname & _).
        unfold exec at 1.
        rewrite (Hkeep (exec (ensureSuperAdmin now) w) now' su); [done| |done].
        rewrite Hus. apply elem_of_app. right. apply list_elem_of_here.
      * unfold exec, ensureSuperAdmin, next_user_id. run.
        rewrite Hf. run. rewrite Hids. run. rewrite Hf. run. by rewrite Hids.
Qed.

Lemma ensureSuperAdmin_bootstrap_witness :
  (∃ su, admins (meta (exec (ensureSuperAdmin 0) initial_world)) = [su]
         ∧ superAdmin su = true ∧ verified su = true)
  ∧ ensureSuperAdmin 7 world_with_bob_as_RankRates
    = (Return tt, world_with_bob_as_RankRates).
Proof.
  split.
  - destruct (ensureSuperAdmin_bootstrap initial_world 0) as (H & _).
    destruct (H _ eq_refl eq_refl) as (su & _ & _ & _ & Hs & Hv & _ & Ha & _).
    exists su. repeat split; assumption.
  - destruct (ensureSuperAdmin_bootstrap world_with_bob_as_RankRates 7) as (_ & H & _).
    apply (H plain_RankRates); [apply list_elem_of_here | reflexivity].
Defined.

(** C10, as stated, fails: a document whose user "RankRates" is an
    ordinary account (neither [superAdmin] nor [verified]) is left as it
    is, so afterwards the one user of that name has neither flag. *)
Lemma ensureSuperAdmin_keeps_plain_account :
  exec (ensureSuperAdmin 7) world_with_bob_as_RankRates = world_with_bob_as_RankRates
  ∧ admins (meta (exec (ensureSuperAdmin 7) world_with_bob_as_RankRates))
    = [plain_RankRates]
  ∧ superAdmin plain_RankRates = false
  ∧ verified plain_RankRates = false.
Proof. repeat split; reflexivity. Qed.

(** Without id counters, as in a stored older document, the bootstrap
    throws before it adds the user. *)
Example ensureSuperAdmin_without_counters :
  ensureSuperAdmin 7 (with_meta (with_nextIds None initial_meta) initial_world)
  = (Throw TypeError, with_meta (with_nextIds None initial_meta) initial_world).
Proof. reflexivity. Qed.

(** ** Arrays, sets and the history of played songs *)

Lemma pops_take (k : nat) (arr : list string) :
  pops k arr = take (length arr - k) arr.
Proof.
  revert arr. induction k as [|k IH]; intros arr; cbn [pops].
  - by rewrite Nat.sub_0_r, firstn_all.
  - rewrite IH, removelast_firstn_len, length_take, take_take. f_equal. lia.
Qed.

Lemma pop_while_longer_take (n : nat) (arr : list string) :
  pop_while_longer n arr = take n arr.
Proof.
  unfold pop_while_longer. rewrite pops_take.
  destruct (Nat.le_gt_cases (length arr) n) as [Hle|Hgt].
  - replace (length arr - (length arr - n))%nat with (length arr) by lia.
    by rewrite firstn_all, take_ge.
  - f_equal. lia.
Qed.

Section SetOfStrings.

Implicit Types (acc arr : list string) (x : string).

Lemma Set_add_elem_of acc x y : y ∈ Set_add acc x ↔ y ∈ acc ∨ y = x.
Proof.
  unfold Set_add. destruct (includes acc x) eqn:E.
  - apply includes_elem_of in E. split; [auto|]. intros [?| ->]; done.
  - rewrite elem_of_app, list_elem_of_singleton. done.
Qed.

Lemma Set_add_NoDup acc x : NoDup acc → NoDup (Set_add acc x).
Proof.
  intros Hnd. unfold Set_add. destruct (includes acc x) eqn:E; [done|].
  apply includes_false in E. apply NoDup_app. split; [done|]. split.
  - intros y Hy ->%list_elem_of_singleton. done.
  - apply NoDup_singleton.
Qed.

Lemma Set_add_length acc x : (length (Set_add acc x) <= S (length acc))%nat.
Proof.
  unfold Set_add. destruct (includes acc x); [lia|].
  rewrite length_app. simpl. lia.
Qed.

Lemma Set_add_prefix acc x : ∃ more, Set_add acc x = acc ++ more.
Proof.
  unfold Set_add. destruct (includes acc x); [exists []; by rewrite app_nil_r | eauto].
Qed.

Lemma fold_Set_add_elem_of arr acc y :
  y ∈ fold_left Set_add arr acc ↔ y ∈ acc ∨ y ∈ arr.
Proof.
  revert acc. induction arr as [|x arr IH]; intros acc; simpl.
  - rewrite elem_of_nil. tauto.
  - rewrite IH, Set_add_elem_of, elem_of_cons. tauto.
Qed.

Lemma fold_Set_add_NoDup arr acc : NoDup acc → NoDup (fold_left Set_add arr acc).
Proof.
  revert acc. induction arr as [|x arr IH]; intros acc Hnd; simpl; [done|].
  by apply IH, Set_add_NoDup.
Qed.

Lemma fold_Set_add_length arr acc :
  (length (fold_left Set_add arr acc) <= length acc + length arr)%nat.
Proof.
  revert acc. induction arr as [|x arr IH]; intros acc; simpl; [lia|].
  specialize (IH (Set_add acc x)). pose proof (Set_add_length acc x). lia.
Qed.

Lemma fold_Set_add_prefix arr acc : ∃ more, fold_left Set_add arr acc = acc ++ more.
Proof.
  revert acc. induction arr as [|x arr IH]; intros acc; simpl.
  - exists []. by rewrite app_nil_r.
  - destruct (IH (Set_add acc x)) as [m1 ->].
    destruct (Set_add_prefix acc x) as [m2 ->].
    exists (m2 ++ m1). by rewrite app_assoc.
Qed.

Lemma Array_from_Set_NoDup arr : NoDup (Array_from_Set arr).
Proof. apply fold_Set_add_NoDup, NoDup_nil_2. Qed.

Lemma Array_from_Set_elem_of arr y : y ∈ Array_from_Set arr ↔ y ∈ arr.
Proof. unfold Array_from_Set. rewrite fold_Set_add_elem_of, elem_of_nil. tauto. Qed.

Lemma Array_from_Set_length arr : (length (Array_from_Set arr) <= length arr)%nat.
Proof. apply (fold_Set_add_length arr []). Qed.

Lemma Array_from_Set_head x arr : head (Array_from_Set (x :: arr)) = Some x.
Proof.
  unfold Array_from_Set. simpl. unfold Set_add at 2. simpl.
  by destruct (fold_Set_add_prefix arr [x]) as [more ->].
Qed.

End SetOfStrings.

(** The new history is the old one with the song put first, cut to 50
    entries, then stripped of repeats; it has at most 50 entries, no
    repeats, and starts with the song. *)
Lemma mark_recently_played_spec (songId : string) (old : option (list string)) :
  mark_recently_played songId old
  = Array_from_Set (take 50 (songId :: default [] old))
  ∧ (length (mark_recently_played songId old) <= 50)%nat
  ∧ NoDup (mark_recently_played songId old)
  ∧ head (mark_recently_played songId old) = Some songId.
Proof.
  unfold mark_recently_played. rewrite pop_while_longer_take.
  split; [done|]. split; [|split].
  - etransitivity; [apply Array_from_Set_length|]. rewrite length_take. lia.
  - apply Array_from_Set_NoDup.
  - change (take 50 (songId :: default [] old))
      with (songId :: take 49 (default [] old)).
    apply Array_from_Set_head.
Qed.

(** ** Player engine *)

Ltac run_play :=
  unfold play, playSong, playSong_at, playSong_onBlob, playSong_onPlay, playSong_catch;
  run.

(** A call that plays: what it leaves behind. *)
Lemma play_success (w : World) (songId : string) (cq : option (list string))
    (hw : Settled unit) :
  plays songId hw w = true →
  let w' := exec (play songId cq hw) w in
  let q := default (queue (player w)) cq in
  fst (play songId cq hw w) = Return tt
  ∧ queue (player w') = q
  ∧ index (player w') = index_in q songId
  ∧ playing (player w') = true
  ∧ currentSongId (player w') = Some songId
  ∧ recentlyPlayed (meta w')
    = Some (mark_recently_played songId (recentlyPlayed (meta w)))
  ∧ last (trace w') = Some (Saved (meta w')).
Proof.
  unfold plays. intros Hp.
  destruct (List.find (has_id songId) (songs (meta w))) as [song|] eqn:Hf; [|done].
  apply andb_true_iff in Hp as [Hp Hhw]. apply andb_true_iff in Hp as [Hb Ha].
  apply bool_decide_eq_true in Hb as [blob Hb].
  destruct hw as [[]|]; [|done].
  run_play. rewrite Hf. run. rewrite Hb, Ha. run.
  destruct cq as [q|]; run;
    cbn [meta player trace with_meta with_player with_trace queue index playing
         currentSongId recentlyPlayed with_queue with_index with_playing
         with_currentSongId with_audioEl with_recentlyPlayed default];
    repeat split; try reflexivity; by rewrite last_snoc.
Qed.

(** A call that does not play leaves the document and the cursor
    alone. *)
Lemma play_failure (w : World) (songId : string) (cq : option (list string))
    (hw : Settled unit) :
  plays songId hw w = false →
  let w' := exec (play songId cq hw) w in
  fst (play songId cq hw w) = Return tt
  ∧ meta w' = meta w
  ∧ queue (player w') = queue (player w)
  ∧ index (player w') = index (player w)
  ∧ playing (player w') = playing (player w)
  ∧ currentSongId (player w') = currentSongId (player w).
Proof.
  unfold plays. intros Hp. run_play.
  destruct (List.find (has_id songId) (songs (meta w))) as [song|] eqn:Hf; run;
    [|done].
  destruct (assets w !! assetId song) as [blob|] eqn:Hb; run; [|done].
  destruct (bool_decide (is_Some (audioEl (player w)))) eqn:Ha; run; [|done].
  destruct hw as [[]|]; [done|]. run. done.
Qed.

(** C4.  When no song has the requested id, or the song's audio blob is
    not in the asset store, the call shows the message ("Song missing",
    "Audio blob missing") and changes nothing else: queue, index,
    current song, playing flag and history are as before and nothing is
    saved, so an idle engine stays idle. *)
Theorem playSong_missing_leaves_state (w : World) (songId : string)
    (cq : option (list string)) (hw : Settled unit) :
  (List.find (has_id songId) (songs (meta w)) = None →
     play songId cq hw w
     = (Return tt, with_trace (trace w ++ [Toast "Song missing"]) w))
  ∧ (∀ song, List.find (has_id songId) (songs (meta w)) = Some song →
       assets w !! assetId song = None →
       play songId cq hw w
       = (Return tt, with_trace (trace w ++ [Toast "Audio blob missing"]) w))
  ∧ (∀ msg, let w' := with_trace (trace w ++ [Toast msg]) w in
       player w' = player w ∧ meta w' = meta w
       ∧ currentUser w' = currentUser w ∧ assets w' = assets w
       ∧ (∀ doc, In (Saved doc) (trace w') → In (Saved doc) (trace w))
       ∧ (idle w → idle w')).
Proof.
  split; [|split].
  - intros Hf. run_play. by rewrite Hf.
  - intros song Hf Hb. run_play. rewrite Hf. run. by rewrite Hb.
  - intros msg w'. repeat split; try done.
    intros doc Hin. subst w'. cbn [trace with_trace] in Hin.
    apply in_app_or in Hin as [Hin|[Hin|[]]]; [done | discriminate Hin].
Qed.

Lemma playSong_missing_leaves_state_witness :
  play "song_9" (Some ["song_9"]) (Fulfilled tt) demo_world
  = (Return tt, with_trace (trace demo_world ++ [Toast "Song missing"]) demo_world)
  ∧ play "song_2" (Some ["song_1"; "song_2"]) (Fulfilled tt) demo_world
    = (Return tt, with_trace (trace demo_world ++ [Toast "Audio blob missing"]) demo_world).
Proof.
  destruct (playSong_missing_leaves_state demo_world "song_9" (Some ["song_9"])
              (Fulfilled tt)) as (H1 & _ & _).
  destruct (playSong_missing_leaves_state demo_world "song_2"
              (Some ["song_1"; "song_2"]) (Fulfilled tt)) as (_ & H2 & _).
  split.
  - apply H1. reflexivity.
  - apply (H2 (demo_song "song_2")); [reflexivity | vm_compute; reflexivity].
Defined.

(** C5 (amended).  When a [playSong] call with a queue plays (its song
    and blob are found and playback starts), the queue becomes the
    given one and the index becomes the first position of the song in
    it, or 0 when the song does not occur in it. *)
Theorem playSong_replaces_queue (w : World) (songId : string) (q : list string)
    (hw : Settled unit) :
  plays songId hw w = true →
  let w' := exec (play songId (Some q) hw) w in
  queue (player w') = q
  ∧ index (player w') = index_in q songId
  ∧ (songId ∈ q →
       0 <= index (player w')
       ∧ q !! Z.to_nat (index (player w')) = Some songId
       ∧ ∀ j : nat, (j < Z.to_nat (index (player w')))%nat → q !! j ≠ Some songId)
  ∧ (songId ∉ q → index (player w') = 0).
Proof.
  intros Hp w'.
  destruct (play_success w songId (Some q) hw Hp) as (_ & Hq & Hi & _).
  fold w' in Hq, Hi. cbn [default from_option id] in Hq, Hi.
  split; [done|]. split; [done|]. rewrite Hi. unfold index_in. split.
  - intros Hin. destruct (indexOf_elem q songId Hin) as ([H0 _] & Hl & Hfirst).
    destruct (Z.leb_spec 0 (indexOf q songId)); [|lia].
    split; [done|]. split; [exact Hl | exact Hfirst].
  - intros Hn. by rewrite (indexOf_not_elem q songId Hn).
Qed.

Lemma playSong_replaces_queue_witness :
  queue (player (exec (play "song_1" (Some ["song_2"; "song_1"]) (Fulfilled tt))
                   demo_world)) = ["song_2"; "song_1"]
  ∧ index (player (exec (play "song_1" (Some ["song_2"; "song_1"]) (Fulfilled tt))
                     demo_world)) = 1
  ∧ index (player (exec (play "song_1" (Some ["song_2"]) (Fulfilled tt))
                     demo_world)) = 0.
Proof.
  assert (Hp : plays "song_1" (Fulfilled tt) demo_world = true) by (vm_compute; reflexivity).
  destruct (playSong_replaces_queue demo_world "song_1" ["song_2"; "song_1"]
              (Fulfilled tt) Hp) as (Hq & Hi & _).
  destruct (playSong_replaces_queue demo_world "song_1" ["song_2"]
              (Fulfilled tt) Hp) as (_ & Hi' & _).
  split; [exact Hq|]. split; [rewrite Hi; reflexivity | rewrite Hi'; reflexivity].
Defined.

(** C5, as stated, fails: a call with a queue whose song has no audio
    blob leaves the earlier queue and index in place. *)
Lemma playSong_failed_call_keeps_queue :
  queue (player demo_world) = ["song_1"]
  ∧ queue (player (exec (play "song_2" (Some ["song_2"; "song_1"]) (Fulfilled tt))
                     demo_world)) = ["song_1"]
  ∧ ["song_1"] ≠ ["song_2"; "song_1"].
Proof. split; [reflexivity|]. split; [vm_compute; reflexivity | discriminate]. Qed.

Lemma at_index_in_range (q : list string) (i : Z) :
  0 <= i < Z.of_nat (length q) → ∃ s, at_index q i = Some s ∧ q !! Z.to_nat i = Some s.
Proof.
  intros Hi. unfold at_index. destruct (Z.ltb_spec i 0); [lia|].
  destruct (lookup_lt_is_Some_2 q (Z.to_nat i)) as [s Hs]; [lia|]. eauto.
Qed.

(** The remainder that the engine computes is the mathematical modulus
    whenever the cursor is not negative. *)
Lemma js_rem_next (i n : Z) : 0 <= i → 1 <= n → js_rem (i + 1) n = (i + 1) mod n.
Proof. intros. unfold js_rem. apply Z.rem_mod_nonneg; lia. Qed.

Lemma js_rem_prev (i n : Z) : 0 <= i → 1 <= n → js_rem (i - 1 + n) n = (i - 1) mod n.
Proof.
  intros. unfold js_rem. rewrite Z.rem_mod_nonneg by lia.
  replace (i - 1 + n) with (i - 1 + 1 * n) by lia. apply Z_mod_plus_full.
Qed.

(** C8.  On a queue of length N >= 1 with a cursor that is not
    negative, [playNext] sets the index to (index + 1) mod N and
    [playPrev] to (index - 1) mod N, so N-1 goes to 0 and 0 goes to N-1;
    each then calls [playSong] on the song at the new index with the
    same queue.  On an empty queue both do nothing. *)
Theorem playNext_playPrev_wrap (w : World) :
  let q := queue (player w) in
  let n := Z.of_nat (length q) in
  let i := index (player w) in
  (n = 0 → playNext w = (Return None, w) ∧ playPrev w = (Return None, w))
  ∧ (1 <= n → 0 <= i →
       ∃ sn sp,
         0 <= (i + 1) mod n < n ∧ 0 <= (i - 1) mod n < n
         ∧ q !! Z.to_nat ((i + 1) mod n) = Some sn
         ∧ q !! Z.to_nat ((i - 1) mod n) = Some sp
         ∧ playNext w
           = playSong sn (Some q) (with_player (with_index ((i + 1) mod n) (player w)) w)
         ∧ playPrev w
           = playSong sp (Some q) (with_player (with_index ((i - 1) mod n) (player w)) w)
         ∧ (i = n - 1 → (i + 1) mod n = 0)
         ∧ (i = 0 → (i - 1) mod n = n - 1)).
Proof.
  intros q n i. split.
  - intros Hn. unfold playNext, playPrev. run. fold q. fold n. by rewrite Hn.
  - intros Hn Hi.
    assert (Hnext : 0 <= (i + 1) mod n < n) by (apply Z.mod_pos_bound; lia).
    assert (Hprev : 0 <= (i - 1) mod n < n) by (apply Z.mod_pos_bound; lia).
    destruct (at_index_in_range q _ Hnext) as (sn & Han & Hln).
    destruct (at_index_in_range q _ Hprev) as (sp & Hap & Hlp).
    exists sn, sp. do 4 (split; [done|]).
    assert (Hz : (n =? 0) = false) by (apply Z.eqb_neq; lia).
    split; [|split; [|split]].
    + unfold playNext. run. fold q. fold n. fold i.
      rewrite Hz, (js_rem_next i n Hi Hn), Han. reflexivity.
    + unfold playPrev. run. fold q. fold n. fold i.
      rewrite Hz, (js_rem_prev i n Hi Hn), Hap. reflexivity.
    + intros ->. replace (n - 1 + 1) with (1 * n) by lia. apply Z_mod_mult.
    + intros ->. replace (0 - 1) with (n - 1 + (-1) * n) by lia.
      rewrite Z_mod_plus_full. apply Z.mod_small. lia.
Qed.

Lemma playNext_playPrev_wrap_witness :
  fst (playNext (with_player (with_index 1 (with_queue ["song_1"; "song_2"]
                                              (player demo_world))) demo_world))
  = Return (Some {| pending_songId := "song_1";
                    pending_queue := Some ["song_1"; "song_2"];
                    pending_song := demo_song "song_1"; pending_audio := true |})
  ∧ playNext initial_world = (Return None, initial_world).
Proof.
  split.
  - destruct (playNext_playPrev_wrap
                (with_player (with_index 1 (with_queue ["song_1"; "song_2"]
                                              (player demo_world))) demo_world))
      as (_ & H).
    destruct H as (sn & sp & _ & _ & Hn & _ & -> & _); [simpl; lia | simpl; lia |].
    injection Hn as <-. reflexivity.
  - destruct (playNext_playPrev_wrap initial_world) as (H & _).
    apply H. reflexivity.
Defined.

Example wrap_around :
  index (player (exec playNext (with_player (with_index 1
           (with_queue ["song_1"; "song_2"] (player demo_world))) demo_world))) = 0
  ∧ index (player (exec playPrev (with_player (with_index 0
           (with_queue ["song_1"; "song_2"] (player demo_world))) demo_world))) = 1.
Proof. split; reflexivity. Qed.

(** ** The history of played songs *)

Lemma run_call_rp_ok (c : Call) (w : World) :
  rp_ok (recentlyPlayed (meta w)) → rp_ok (recentlyPlayed (meta (run_call c w))).
Proof.
  intros Hok. unfold run_call.
  destruct (plays (call_songId c) (call_hw c) w) eqn:Hp.
  - destruct (play_success w _ (call_queue c) _ Hp) as (_ & _ & _ & _ & _ & Hrp & _).
    unfold exec in Hrp. rewrite Hrp.
    destruct (mark_recently_played_spec (call_songId c) (recentlyPlayed (meta w)))
      as (_ & Hlen & Hnd & _).
    by split.
  - destruct (play_failure w _ (call_queue c) _ Hp) as (_ & Hm & _).
    unfold exec in Hm. by rewrite Hm.
Qed.

Lemma run_calls_rp_ok (cs : list Call) (w : World) :
  rp_ok (recentlyPlayed (meta w)) → rp_ok (recentlyPlayed (meta (run_calls cs w))).
Proof.
  revert w. induction cs as [|c cs IH]; intros w Hok; [done|].
  apply IH. by apply run_call_rp_ok.
Qed.

(** C3 (amended).  Start from a history that is absent or has at most
    50 entries without repeats, and run any sequence of [playSong]
    calls.  After each call the history has at most 50 entries and no
    repeats.  A call that plays puts its song first: the new history is
    the old one with the song prepended, cut to 50 entries, then
    stripped of repeats, and the document holding it is saved last.  A
    call that does not play leaves the history as it was. *)
Theorem recentlyPlayed_bounded_deduped (w0 : World) (cs : list Call) (c : Call) :
  rp_ok (recentlyPlayed (meta w0)) →
  let w := run_calls cs w0 in
  let w' := run_call c w in
  rp_ok (recentlyPlayed (meta w'))
  ∧ (plays (call_songId c) (call_hw c) w = true →
       recentlyPlayed (meta w')
       = Some (Array_from_Set
                 (take 50 (call_songId c :: default [] (recentlyPlayed (meta w)))))
       ∧ (∃ rest, recentlyPlayed (meta w') = Some (call_songId c :: rest))
       ∧ last (trace w') = Some (Saved (meta w')))
  ∧ (plays (call_songId c) (call_hw c) w = false →
       recentlyPlayed (meta w') = recentlyPlayed (meta w)).
Proof.
  intros Hok. cbv zeta. set (w := run_calls cs w0).
  assert (Hw : rp_ok (recentlyPlayed (meta w))) by by apply run_calls_rp_ok.
  split; [by apply run_call_rp_ok|]. unfold run_call. split.
  - intros Hp.
    destruct (play_success w _ (call_queue c) _ Hp) as (_ & _ & _ & _ & _ & Hrp & Hs).
    unfold exec in Hrp, Hs.
    destruct (mark_recently_played_spec (call_songId c) (recentlyPlayed (meta w)))
      as (Heq & _ & _ & Hhd).
    split; [by rewrite Hrp, Heq|]. split; [|done].
    rewrite Hrp.
    destruct (mark_recently_played (call_songId c) (recentlyPlayed (meta w)))
      as [|x rest]; [discriminate Hhd|].
    injection Hhd as ->. by exists rest.
  - intros Hp. destruct (play_failure w _ (call_queue c) _ Hp) as (_ & Hm & _).
    unfold exec in Hm. by rewrite Hm.
Qed.

Lemma recentlyPlayed_bounded_deduped_witness :
  rp_ok (recentlyPlayed (meta (run_calls
           [ {| call_songId := "song_1"; call_queue := None; call_hw := Fulfilled tt |};
             {| call_songId := "song_2"; call_queue := None; call_hw := Fulfilled tt |};
             {| call_songId := "song_1"; call_queue := None; call_hw := Fulfilled tt |} ]
           demo_world))).
Proof.
  apply (recentlyPlayed_bounded_deduped demo_world
           [ {| call_songId := "song_1"; call_queue := None; call_hw := Fulfilled tt |};
             {| call_songId := "song_2"; call_queue := None; call_hw := Fulfilled tt |} ]
           {| call_songId := "song_1"; call_queue := None; call_hw := Fulfilled tt |}).
  simpl. split; [lia | apply NoDup_nil_2].
Defined.

(** C3, as stated, fails on the order of the steps.  With fifty songs
    in the history, playing the first of them again drops the oldest
    entry before the repeat is removed: 49 entries are left, without
    [song_50].  Prepend, dedupe, then cap would keep all fifty. *)
Lemma recentlyPlayed_caps_before_dedupe :
  plays "song_1" (Fulfilled tt) world_with_full_history = true
  ∧ recentlyPlayed (meta world_with_full_history) = Some (song_ids 50)
  ∧ recentlyPlayed (meta (exec (play "song_1" None (Fulfilled tt))
                            world_with_full_history))
    = Some (song_ids 49)
  ∧ spec_prepend_dedupe_cap "song_1" (Some (song_ids 50)) = song_ids 50
  ∧ song_ids 49 ≠ song_ids 50.
Proof.
  split; [vm_compute; reflexivity|]. split; [reflexivity|].
  split; [vm_compute; reflexivity|]. split; [vm_compute; reflexivity|].
  intros H. apply (f_equal length) in H. vm_compute in H. discriminate H.
Qed.

(** ** Interleaved handlers

    Between the segments of one [playSong] call other handlers may
    run.  Whatever the order, the cursor never becomes negative and the
    history stays within its bound. *)

Lemma playSong_onBlob_absent (p : Pending) (w : World) :
  playSong_onBlob p (Fulfilled None) w
  = (Return None, with_trace (trace w ++ [Toast "Audio blob missing"]) w).
Proof. reflexivity. Qed.

Lemma index_in_nonneg (q : list string) (songId : string) : 0 <= index_in q songId.
Proof. unfold index_in. destruct (Z.leb_spec 0 (indexOf q songId)); lia. Qed.

Lemma engine_step_inv (w w' : World) :
  engine_step w w' → engine_inv w → engine_inv w'.
Proof.
  intros Hstep [Hi Hrp].
  destruct Hstep as [songId cq|[sid pq song pa] r|[sid pq song pa] r| | |i sid q].
  - unfold playSong. run.
    by destruct (List.find (has_id songId) (songs (meta w))); run.
  - unfold playSong_onBlob, playSong_catch. run.
    destruct r as [[blob|]|]; run; [|done|done].
    by destruct pa; run.
  - unfold playSong_onPlay, playSong_catch. run. destruct r as [[]|]; run; [|done].
    destruct pq as [q|]; run; split;
      cbn [meta player with_meta with_player with_trace index with_index
           recentlyPlayed with_recentlyPlayed];
      try apply index_in_nonneg;
      destruct (mark_recently_played_spec sid (recentlyPlayed (meta w)))
        as (_ & Hlen & Hnd & _); by split.
  - unfold playNext, playSong_at, playSong. run.
    destruct (Z.eqb_spec (Z.of_nat (length (queue (player w)))) 0) as [|Hn]; run;
      [done|].
    assert (0 <= js_rem (index (player w) + 1) (Z.of_nat (length (queue (player w))))).
    { rewrite js_rem_next by lia. apply Z.mod_pos_bound. lia. }
    destruct (at_index _ _); run;
      [destruct (List.find _ _); run|]; by split.
  - unfold playPrev, playSong_at, playSong. run.
    destruct (Z.eqb_spec (Z.of_nat (length (queue (player w)))) 0) as [|Hn]; run;
      [done|].
    assert (0 <= js_rem (index (player w) - 1 + Z.of_nat (length (queue (player w))))
                   (Z.of_nat (length (queue (player w))))).
    { rewrite js_rem_prev by lia. apply Z.mod_pos_bound. lia. }
    destruct (at_index _ _); run;
      [destruct (List.find _ _); run|]; by split.
  - unfold queue_entry_click, playSong. run.
    destruct (List.find _ _); run; split; cbn [index player with_player with_index
      with_trace meta recentlyPlayed]; first [lia | done].
Qed.

Lemma engine_steps_inv (w w' : World) :
  rtc engine_step w w' → engine_inv w → engine_inv w'.
Proof. induction 1; eauto using engine_step_inv. Qed.

Lemma initial_world_inv : engine_inv initial_world.
Proof. split; [done|]. simpl. split; [lia | apply NoDup_nil_2]. Qed.

(** * Further properties *)

(** ** Metadata store: loading is stable *)

Lemma migrate_array mode k e elems named :
  migrate mode k e (JArr elems named) = inr (JArr elems (fill k e named)).
Proof. unfold migrate, fill. simpl. by destruct (truthy (own_get named k)). Qed.

Lemma migrations_array mode elems named :
  migrations mode (JArr elems named)
  = inr (JArr elems (fill "followers" (JObj [])
                    (fill "likes" (JObj [])
                    (fill "albums" (JArr [] [])
                    (fill "playlists" (JArr [] [])
                    (fill "songs" (JArr [] [])
                    (fill "users" (JArr [] []) named))))))).
Proof. unfold migrations. by repeat (rewrite migrate_array; cbn [and_then]). Qed.

(** Properties in which the six collections are all truthy are left
    alone by the six lines. *)
Lemma fills_complete (props : list (string * JSValue)) :
  (∀ k, In k migrated_keys → truthy (own_get props k) = true) →
  fill "followers" (JObj [])
    (fill "likes" (JObj [])
    (fill "albums" (JArr [] [])
    (fill "playlists" (JArr [] [])
    (fill "songs" (JArr [] [])
    (fill "users" (JArr [] []) props))))) = props.
Proof.
  intros H.
  assert (Hk : ∀ k e, In k migrated_keys → fill k e props = props).
  { intros k e Hin. unfold fill. by rewrite (H k Hin). }
  rewrite (Hk "users"), (Hk "songs"), (Hk "playlists"), (Hk "albums"),
    (Hk "likes"), (Hk "followers"); simpl; auto 10.
Qed.

(** After the six lines the six collections are all truthy. *)
Lemma fills_truthy (props : list (string * JSValue)) (k : string) :
  In k migrated_keys →
  truthy (own_get (fill "followers" (JObj [])
                  (fill "likes" (JObj [])
                  (fill "albums" (JArr [] [])
                  (fill "playlists" (JArr [] [])
                  (fill "songs" (JArr [] [])
                  (fill "users" (JArr [] []) props)))))) k) = true.
Proof.
  intros Hk. simpl in Hk.
  destruct Hk as [<-|[<-|[<-|[<-|[<-|[<-|[]]]]]]]; fill_get;
    match goal with
    | |- truthy (if truthy ?o then _ else _) = true => by destruct (truthy o) eqn:E
    end.
Qed.

(** X1.  A stored object in which the six collections are all there
    (truthy) is returned exactly as stored, in either mode, and nothing
    is written or logged. *)
Theorem loadMeta_complete_document_unchanged (mode : Mode)
    (props : list (string * JSValue)) :
  (∀ k, In k migrated_keys → truthy (own_get props k) = true) →
  loadMeta mode (Json (JObj props))
  = {| loaded_doc := JObj props; loaded_store := Json (JObj props);
       loaded_log := [] |}.
Proof.
  intros H. unfold loadMeta. cbn [JSON_parse and_then].
  by rewrite migrations_object, (fills_complete props H).
Qed.

Lemma loadMeta_complete_document_unchanged_witness :
  loaded_doc (loadMeta Strict (Json older_document)) = older_document.
Proof.
  unfold older_document.
  rewrite loadMeta_complete_document_unchanged; [reflexivity|].
  intros k Hk. simpl in Hk.
  destruct Hk as [<-|[<-|[<-|[<-|[<-|[<-|[]]]]]]]; reflexivity.
Defined.

(** X2.  The migration is stable: applied to a document it produced, it
    changes nothing.  So loading what an earlier load returned (once it
    is saved) yields the same document. *)
Theorem migrations_idempotent (mode : Mode) (v v' : JSValue) :
  migrations mode v = inr v' → migrations mode v' = inr v'.
Proof.
  destruct v as [|b|n|s|elems named|props].
  - discriminate.
  - destruct mode; [|discriminate]. by intros [= <-].
  - destruct mode; [|discriminate]. by intros [= <-].
  - destruct mode; [|discriminate]. by intros [= <-].
  - rewrite migrations_array. intros [= <-].
    rewrite migrations_array. do 2 f_equal. apply fills_complete.
    intros k Hk. by apply fills_truthy.
  - rewrite migrations_object. intros [= <-].
    rewrite migrations_object. do 2 f_equal. apply fills_complete.
    intros k Hk. by apply fills_truthy.
Qed.

Lemma migrations_idempotent_witness :
  migrations Sloppy (JObj [("users", JArr [] []); ("songs", JArr [] []);
                           ("playlists", JArr [] []); ("albums", JArr [] []);
                           ("likes", JObj []); ("followers", JObj [])])
  = inr (JObj [("users", JArr [] []); ("songs", JArr [] []);
               ("playlists", JArr [] []); ("albums", JArr [] []);
               ("likes", JObj []); ("followers", JObj [])]).
Proof. apply (migrations_idempotent Sloppy (JObj [])). reflexivity. Defined.

(** ** Accounts: registration, login and the bootstrap together *)

Ltac run_more :=
  unfold createPlaylist, next_playlist_id, next_song_id, next_album_id,
    next_user_id, logoutUser, idbPut, idbGet, idbDelete, push_song, push_album;
  run.

(** A registration that goes through, in full. *)
Lemma registerUser_fresh (w : World) (uname pwd dname : string) (now : Z) (ids : NextIds) :
  List.find (is_named uname) (users (meta w)) = None →
  nextIds (meta w) = Some ids →
  let user := new_user (next_user ids) uname pwd dname now in
  let m' := registered_meta user ids (meta w) in
  registerUser uname pwd dname now w
  = (Return (AuthOk user), with_trace (trace w ++ [Saved m']) (with_meta m' w)).
Proof.
  intros Hf Hids. unfold registerUser, next_user_id. run. rewrite Hf. run.
  rewrite Hids. run. reflexivity.
Qed.

Lemma find_app {A} (p : A → bool) (l1 l2 : list A) :
  List.find p (l1 ++ l2)
  = match List.find p l1 with Some x => Some x | None => List.find p l2 end.
Proof.
  induction l1 as [|a l1 IH]; simpl; [done|]. by destruct (p a).
Qed.

Lemma find_named_None (nm : string) (us : list User) :
  List.find (is_named nm) us = None ↔ nm ∉ List.map username us.
Proof.
  induction us as [|u us IH]; simpl.
  - split; [intros _; apply not_elem_of_nil | done].
  - unfold is_named at 1. destruct (String.eqb_spec (username u) nm) as [->|Hne].
    + split; [discriminate|]. intros H. destruct H. apply list_elem_of_here.
    + rewrite IH, not_elem_of_cons. split; [by split | by intros [_ ?]].
Qed.

Lemma find_credentials_None (uname pwd : string) (us : list User) :
  List.find (is_named uname) us = None →
  List.find (has_credentials uname pwd) us = None.
Proof.
  induction us as [|u us IH]; simpl; [done|].
  unfold is_named at 1, has_credentials at 1.
  destruct (String.eqb (username u) uname); [discriminate|]. simpl. exact IH.
Qed.

(** X3.  After a registration that goes through (new username, id
    counters present), logging in with the same username and password
    succeeds and makes the newly registered user the current user; with
    the same username and any other password it is refused. *)
Theorem register_then_login (w : World) (uname pwd dname : string) (now : Z)
    (ids : NextIds) :
  List.find (is_named uname) (users (meta w)) = None →
  nextIds (meta w) = Some ids →
  let w1 := exec (registerUser uname pwd dname now) w in
  let user := new_user (next_user ids) uname pwd dname now in
  fst (registerUser uname pwd dname now w) = Return (AuthOk user)
  ∧ fst (loginUser uname pwd w1) = Return (AuthOk user)
  ∧ currentUser (exec (loginUser uname pwd) w1) = Some user
  ∧ (∀ pwd', pwd' ≠ pwd →
       loginUser uname pwd' w1 = (Return (AuthFailed "Invalid credentials"), w1)).
Proof.
  intros Hf Hids w1 user. subst w1. unfold exec.
  rewrite (registerUser_fresh w uname pwd dname now ids Hf Hids).
  cbn [fst snd]. split; [done|].
  unfold loginUser. run.
  cbn [meta with_meta with_trace users with_users registered_meta].
  assert (Hcred : ∀ p, List.find (has_credentials uname p) (users (meta w) ++ [user])
            = if String.eqb pwd p then Some user else None).
  { intros p. rewrite find_app, (find_credentials_None uname p _ Hf). simpl.
    unfold has_credentials. cbn [username password user new_user].
    by rewrite String.eqb_refl. }
  split; [|split].
  - by rewrite Hcred, String.eqb_refl.
  - by rewrite Hcred, String.eqb_refl.
  - intros pwd' Hne. rewrite Hcred.
    destruct (String.eqb_spec pwd pwd'); [congruence | done].
Qed.

Lemma register_then_login_witness :
  fst (loginUser "carol" "secret"
         (exec (registerUser "carol" "secret" "Carol" 5) world_with_bob))
  = Return (AuthOk (new_user 1 "carol" "secret" "Carol" 5)).
Proof.
  apply (register_then_login world_with_bob "carol" "secret" "Carol" 5
           {| next_song := 1; next_album := 1; next_playlist := 1; next_user := 1 |});
    reflexivity.
Defined.

(** X4.  Usernames stay unique: if no two users share a username, this
    still holds after [registerUser] and after [ensureSuperAdmin],
    whatever their arguments and outcome. *)
Theorem usernames_stay_unique (w : World) (uname pwd dname : string) (now : Z) :
  usernames_unique (meta w) →
  usernames_unique (meta (exec (registerUser uname pwd dname now) w))
  ∧ usernames_unique (meta (exec (ensureSuperAdmin now) w)).
Proof.
  unfold usernames_unique. intros Hnd.
  assert (Hpush : ∀ u, List.find (is_named (username u)) (users (meta w)) = None →
            NoDup (List.map username (users (meta w) ++ [u]))).
  { intros u Hf. rewrite map_app. apply NoDup_app. split; [done|]. split.
    - intros x Hx Hin. simpl in Hin. apply list_elem_of_singleton in Hin as ->.
      by apply find_named_None in Hf.
    - apply NoDup_singleton. }
  split.
  - unfold registerUser, next_user_id. run.
    destruct (List.find (is_named uname) (users (meta w))) eqn:Hf; run; [done|].
    destruct (nextIds (meta w)); run; [|done].
    cbn [meta with_meta with_trace users with_users with_nextIds].
    by apply (Hpush (new_user _ uname pwd dname now)).
  - unfold ensureSuperAdmin, next_user_id. run.
    destruct (List.find (is_named "RankRates") (users (meta w))) eqn:Hf; run; [done|].
    destruct (nextIds (meta w)); run; [|done].
    cbn [meta with_meta with_trace users with_users with_nextIds].
    match goal with |- NoDup (List.map username (_ ++ [?u])) => by apply (Hpush u) end.
Qed.

Lemma usernames_stay_unique_witness :
  usernames_unique (meta (exec (registerUser "bob" "x" "B" 3) world_with_bob)).
Proof.
  apply (usernames_stay_unique world_with_bob "bob" "x" "B" 3).
  unfold usernames_unique. simpl. apply NoDup_singleton.
Defined.



(** X6.  Without id counters (a stored document that lacks [nextIds]),
    registering a new username, the bootstrap without a "RankRates"
    user, and creating a playlist all throw a TypeError and leave the
    world exactly as it was: nothing is added and nothing is saved. *)
Theorem without_counters_nothing_is_created (w : World) (uname pwd dname nm own : string)
    (priv : bool) (now : Z) :
  nextIds (meta w) = None →
  (List.find (is_named uname) (users (meta w)) = None →
     registerUser uname pwd dname now w = (Throw TypeError, w))
  ∧ (List.find (is_named "RankRates") (users (meta w)) = None →
     ensureSuperAdmin now w = (Throw TypeError, w))
  ∧ createPlaylist nm own priv now w = (Throw TypeError, w).
Proof.
  intros Hids. split; [|split].
  - intros Hf. unfold registerUser, next_user_id. run. rewrite Hf. run. by rewrite Hids.
  - intros Hf. unfold ensureSuperAdmin, next_user_id. run. rewrite Hf. run.
    by rewrite Hids.
  - run_more. by rewrite Hids.
Qed.

Lemma without_counters_nothing_is_created_witness :
  createPlaylist "Faves" "bob" false 0
    (with_meta (with_nextIds None initial_meta) initial_world)
  = (Throw TypeError, with_meta (with_nextIds None initial_meta) initial_world).
Proof.
  apply (without_counters_nothing_is_created
           (with_meta (with_nextIds None initial_meta) initial_world)
           "x" "y" "z" "Faves" "bob" false 0).
  reflexivity.
Defined.

(** X7.  After the bootstrap has created the administrator (no
    "RankRates" user before, id counters present), logging in as
    "RankRates" with the built-in password returns a verified
    superAdmin, and registering the name "RankRates" is refused. *)
Theorem bootstrap_then_admin_login (w : World) (now : Z) (ids : NextIds) :
  List.find (is_named "RankRates") (users (meta w)) = None →
  nextIds (meta w) = Some ids →
  let w1 := exec (ensureSuperAdmin now) w in
  (∃ su, fst (loginUser "RankRates" "Rank1250" w1) = Return (AuthOk su)
         ∧ superAdmin su = true ∧ verified su = true
         ∧ user_id su = next_user ids)
  ∧ (∀ pwd dname t,
       registerUser "RankRates" pwd dname t w1
       = (Return (AuthFailed "Username exists"), w1)).
Proof.
  intros Hf Hids w1. subst w1.
  unfold exec, ensureSuperAdmin, next_user_id. run. rewrite Hf. run. rewrite Hids. run.
  cbn [meta with_meta with_trace users with_users with_nextIds]. split.
  - eexists. unfold loginUser. run.
    cbn [meta with_meta with_trace users with_users with_nextIds].
    rewrite find_app, (find_credentials_None "RankRates" "Rank1250" _ Hf).
    cbn. split; [reflexivity|]. by repeat split.
  - intros pwd dname t. unfold registerUser. run.
    cbn [meta with_meta with_trace users with_users with_nextIds].
    rewrite find_app, Hf. cbn [List.find]. unfold is_named at 1. cbn [username].
    by rewrite String.eqb_refl.
Qed.

Lemma bootstrap_then_admin_login_witness :
  registerUser "RankRates" "x" "Me" 9 (exec (ensureSuperAdmin 0) initial_world)
  = (Return (AuthFailed "Username exists"), exec (ensureSuperAdmin 0) initial_world).
Proof.
  apply (bootstrap_then_admin_login initial_world 0
           {| next_song := 1; next_album := 1; next_playlist := 1; next_user := 1 |});
    reflexivity.
Defined.

(** [logoutUser] clears the current user and leaves the document
    alone; from then on [followUser] and [unfollowUser] only show
    "Login first": they change nothing in the document and save
    nothing. *)
Theorem logout_then_follow_refused (w : World) (target : string) :
  let w1 := exec logoutUser w in
  currentUser w1 = None
  ∧ meta w1 = meta w
  ∧ followUser target w1 = (Return tt, with_trace (trace w1 ++ [Toast "Login first"]) w1)
  ∧ unfollowUser target w1
    = (Return tt, with_trace (trace w1 ++ [Toast "Login first"]) w1).
Proof. by repeat split. Qed.

(** ** Follow and unfollow together *)

Lemma indexOf_snoc (arr : list string) (x : string) :
  x ∉ arr → indexOf (arr ++ [x]) x = Z.of_nat (length arr).
Proof.
  induction arr as [|y rest IH]; intros Hn; simpl.
  - by rewrite String.eqb_refl.
  - apply not_elem_of_cons in Hn as [Hne Hn].
    destruct (String.eqb_spec y x); [congruence|].
    rewrite (IH Hn). destruct (Z.ltb_spec (Z.of_nat (length rest)) 0); lia.
Qed.

(** Where the first occurrence of a member lies. *)
Lemma indexOf_split (arr : list string) (x : string) :
  x ∈ arr →
  ∃ l1 l2, arr = l1 ++ x :: l2 ∧ (x ∉ l1) ∧ indexOf arr x = Z.of_nat (length l1).
Proof.
  induction arr as [|y rest IH]; [by intros ?%elem_of_nil|].
  intros Hin. cbn [indexOf]. destruct (String.eqb_spec y x) as [->|Hne].
  - exists [], rest. split; [done|]. split; [apply not_elem_of_nil | done].
  - apply elem_of_cons in Hin as [?|Hin]; [congruence|].
    destruct (IH Hin) as (l1 & l2 & -> & Hn & Hi).
    exists (y :: l1), l2. split; [done|]. split.
    + apply not_elem_of_cons. split; [congruence | done].
    + rewrite Hi. destruct (Z.ltb_spec (Z.of_nat (length l1)) 0); simpl length; lia.
Qed.

(** The follower list after [unfollowUser] by a signed-in user. *)
Lemma unfollowUser_own (w : World) (me : User) (target : string) (arr : list string) :
  currentUser w = Some me →
  followers (meta w) !! target = Some arr →
  let arr' := if 0 <=? indexOf arr (username me)
              then splice1 arr (indexOf arr (username me)) else arr in
  unfollowUser target w
  = (Return tt,
     let m' := with_followers (<[target := arr']> (followers (meta w))) (meta w) in
     with_trace (trace w ++ [Saved m']) (with_meta m' w)).
Proof.
  intros Hme Hl. unfold unfollowUser. run. rewrite Hme.
  rewrite (followers_at_own _ _ _ Hl). run. reflexivity.
Qed.

(** X8.  Follow then unfollow is a round trip: for a signed-in user who
    does not yet follow the target, the target's follower list after
    [followUser] and then [unfollowUser] is the list from before. *)
Theorem follow_then_unfollow_restores (w : World) (me : User) (target : string) :
  currentUser w = Some me →
  followers_at (meta w) target ≠ Inherited →
  username me ∉ followers_of (meta w) target →
  followers_of (meta (exec (unfollowUser target) (exec (followUser target) w))) target
  = followers_of (meta w) target.
Proof.
  intros Hme Hni Hnot.
  destruct (followUser_meta w me target Hme) as [Hme1 H1].
  set (w1 := exec (followUser target) w) in *.
  assert (Hl1 : followers (meta w1) !! target
                = Some (followers_of (meta w) target ++ [username me])).
  { unfold followers_of in *. unfold followers_at in H1, Hni.
    destruct (followers (meta w) !! target) as [arr|] eqn:Hl;
      cbn [default from_option id] in *.
    - apply includes_false in Hnot. rewrite Hnot in H1. rewrite H1.
      cbn [followers with_followers]. apply lookup_insert_eq.
    - destruct (includes Object_prototype_keys target); [by destruct Hni|].
      rewrite H1. cbn [followers with_followers app]. apply lookup_insert_eq. }
  unfold exec at 1. rewrite (unfollowUser_own w1 me target _ Hme1 Hl1).
  cbn [snd meta with_meta with_trace followers with_followers].
  unfold followers_of at 1. cbn [followers with_followers].
  rewrite lookup_insert_eq. cbn [default from_option id].
  rewrite (indexOf_snoc _ _ Hnot).
  destruct (Z.leb_spec 0 (Z.of_nat (length (followers_of (meta w) target)))); [|lia].
  unfold splice1. rewrite Nat2Z.id.
  by rewrite (delete_middle _ [] (username me)), app_nil_r.
Qed.

Lemma follow_then_unfollow_restores_witness :
  followers_of (meta (exec (unfollowUser "alice")
                        (exec (followUser "alice") bob_signed_in))) "alice"
  = followers_of (meta bob_signed_in) "alice".
Proof.
  apply (follow_then_unfollow_restores bob_signed_in bob "alice").
  - reflexivity.
  - vm_compute. discriminate.
  - vm_compute. apply not_elem_of_nil.
Defined.

(** X9.  Follower lists stay free of repeats: if the target's list has
    no repeated name, it has none after [followUser] and none after
    [unfollowUser], and after [unfollowUser] the signed-in user is not
    in it. *)
Theorem followers_stay_duplicate_free (w : World) (me : User) (target : string) :
  currentUser w = Some me →
  NoDup (followers_of (meta w) target) →
  NoDup (followers_of (meta (exec (followUser target) w)) target)
  ∧ NoDup (followers_of (meta (exec (unfollowUser target) w)) target)
  ∧ (followers_at (meta w) target ≠ Inherited →
       username me ∉ followers_of (meta (exec (unfollowUser target) w)) target).
Proof.
  intros Hme Hnd. split; [|].
  - destruct (followUser_meta w me target Hme) as [_ H1].
    unfold followers_of in *. unfold followers_at in H1.
    destruct (followers (meta w) !! target) as [arr|] eqn:Hl; simpl in Hnd.
    + destruct (includes arr (username me)) eqn:Hinc; rewrite H1.
      * by rewrite Hl.
      * simpl. rewrite lookup_insert_eq. simpl. apply includes_false in Hinc.
        apply NoDup_app. split; [done|]. split; [|apply NoDup_singleton].
        intros x Hx ->%list_elem_of_singleton. done.
    + destruct (includes Object_prototype_keys target); rewrite H1.
      * rewrite Hl. apply NoDup_nil_2.
      * simpl. rewrite lookup_insert_eq. simpl. apply NoDup_singleton.
  - unfold followers_of in *.
    destruct (followers (meta w) !! target) as [arr|] eqn:Hl; simpl in Hnd.
    + unfold exec. rewrite (unfollowUser_own w me target arr Hme Hl).
      cbn [snd meta with_meta with_trace followers with_followers].
      rewrite lookup_insert_eq. cbn [default from_option id].
      destruct (decide (username me ∈ arr)) as [Hin|Hn].
      * destruct (indexOf_split arr _ Hin) as (l1 & l2 & -> & Hn1 & Hi).
        rewrite Hi. destruct (Z.leb_spec 0 (Z.of_nat (length l1))); [|lia].
        unfold splice1. rewrite Nat2Z.id, delete_middle.
        apply NoDup_app in Hnd as (Hnd1 & Hdisj & Hnd2).
        apply NoDup_cons in Hnd2 as [Hn2 Hnd2].
        split; [|intros _; rewrite elem_of_app; tauto].
        apply NoDup_app. split; [done|]. split; [|done].
        intros x Hx Hx2. apply (Hdisj x Hx). by apply elem_of_cons; right.
      * rewrite (indexOf_not_elem arr _ Hn). simpl. by split.
    + unfold unfollowUser, followers_at. run. rewrite Hme. rewrite Hl.
      destruct (includes Object_prototype_keys target) eqn:Hinh; run.
      * split; [by rewrite Hl; apply NoDup_nil_2|].
        intros Hc. by destruct Hc.
      * cbn [meta with_meta with_trace followers with_followers indexOf].
        rewrite lookup_insert_eq. simpl.
        split; [apply NoDup_nil_2 | intros _; apply not_elem_of_nil].
Qed.

Lemma followers_stay_duplicate_free_witness :
  NoDup (followers_of (meta (exec (followUser "alice") bob_signed_in)) "alice").
Proof.
  apply (followers_stay_duplicate_free bob_signed_in bob "alice"); [reflexivity|].
  vm_compute. apply NoDup_nil_2.
Defined.

(** X10.  [followUser] and [unfollowUser] touch one entry only: the
    follower lists of every other target, the users, the songs and the
    history are as before, and the session is kept. *)
Theorem follow_touches_one_entry (w : World) (target other : string) :
  other ≠ target →
  (∀ w', w' = exec (followUser target) w ∨ w' = exec (unfollowUser target) w →
     followers (meta w') !! other = followers (meta w) !! other
     ∧ users (meta w') = users (meta w)
     ∧ songs (meta w') = songs (meta w)
     ∧ recentlyPlayed (meta w') = recentlyPlayed (meta w)
     ∧ currentUser w' = currentUser w
     ∧ player w' = player w).
Proof.
  intros Hne w' Hw'.
  destruct Hw' as [-> | ->].
  - unfold followUser. run. destruct (currentUser w) as [me|] eqn:Hcu; run;
      [|by repeat split].
    destruct (followers_at (meta w) target) as [arr| |] eqn:Hslot; run.
    + rewrite Hslot. destruct (includes arr (username me)); run;
        [by repeat split|].
      cbn [meta with_meta with_trace followers with_followers].
      rewrite lookup_insert_ne by done. by repeat split.
    + rewrite Hslot. by repeat split.
    + cbn [meta with_meta]. rewrite followers_at_inserted. run.
      cbn [includes existsb meta with_meta with_trace followers with_followers].
      rewrite !lookup_insert_ne by done. by repeat split.
  - unfold unfollowUser. run. destruct (currentUser w) as [me|] eqn:Hcu; run;
      [|by repeat split].
    destruct (followers_at (meta w) target) as [arr| |] eqn:Hslot; run;
      [|by repeat split|];
      cbn [meta with_meta with_trace followers with_followers];
      rewrite lookup_insert_ne by done; by repeat split.
Qed.

Lemma follow_touches_one_entry_witness :
  followers (meta (exec (followUser "alice") bob_signed_in)) !! "carol"
  = followers (meta bob_signed_in) !! "carol".
Proof.
  apply (follow_touches_one_entry bob_signed_in "alice" "carol"); [discriminate|].
  left. reflexivity.
Defined.

(** ** Playlists *)





(** ** Blob store *)

Lemma run_blob_ops_snoc (ops : list BlobOp) (op : BlobOp) (w : World) :
  run_blob_ops (ops ++ [op]) w = run_blob_op op (run_blob_ops ops w).
Proof. unfold run_blob_ops. by rewrite fold_left_app. Qed.

Lemma last_write_cons_other (id : string) (op : BlobOp) (ops : list BlobOp) :
  last_write id (op :: ops)
  = match last_write id ops with
    | Some r => Some r
    | None => last_write id [op]
    end.
Proof. simpl. by destruct (last_write id ops), op. Qed.

(** X12.  The blob store is last-write-wins per key: after any sequence
    of puts, gets and deletes, [idbGet] of a key returns the blob of the
    latest put of that key, null if a delete of that key came later,
    and what was stored before when the key was neither put nor
    deleted.  Gets and operations on other keys do not matter, and the
    document and the player are never touched. *)
Theorem blob_store_last_write_wins (ops : list BlobOp) (w : World) (id : string) :
  fst (idbGet id (run_blob_ops ops w))
  = Return (match last_write id ops with
            | Some r => r
            | None => assets w !! id
            end)
  ∧ meta (run_blob_ops ops w) = meta w
  ∧ player (run_blob_ops ops w) = player w
  ∧ currentUser (run_blob_ops ops w) = currentUser w.
Proof.
  revert w. induction ops as [|op ops IH]; intros w; [done|].
  change (run_blob_ops (op :: ops) w) with (run_blob_ops ops (run_blob_op op w)).
  destruct (IH (run_blob_op op w)) as (Hget & Hm & Hp & Hu).
  rewrite Hget, Hm, Hp, Hu, last_write_cons_other.
  split; [|by destruct op].
  destruct (last_write id ops) as [r|]; [done|].
  f_equal. destruct op as [id' blob|id'|id']; cbn [last_write run_blob_op].
  - run_more. cbn [assets with_assets].
    destruct (String.eqb_spec id' id) as [->|Hne].
    + by rewrite lookup_insert_eq.
    + by rewrite lookup_insert_ne.
  - done.
  - run_more. cbn [assets with_assets].
    destruct (String.eqb_spec id' id) as [->|Hne].
    + by rewrite lookup_delete_eq.
    + by rewrite lookup_delete_ne.
Qed.

(** ** escapeHtml *)

(** The five characters that [escapeHtml] replaces. *)
Lemma escape_char_cases (c : ascii) :
  (c = "&"%char ∧ escape_char c = "&amp;")
  ∨ (c = "<"%char ∧ escape_char c = "&lt;")
  ∨ (c = ">"%char ∧ escape_char c = "&gt;")
  ∨ (c = dquote ∧ escape_char c = "&quot;")
  ∨ (c = "'"%char ∧ escape_char c = "&#39;")
  ∨ (c ≠ "&"%char ∧ c ≠ "<"%char ∧ c ≠ ">"%char ∧ c ≠ dquote ∧ c ≠ "'"%char
     ∧ escape_char c = String c EmptyString).
Proof.
  unfold escape_char.
  destruct (Ascii.eqb_spec c "&"); [by left|right].
  destruct (Ascii.eqb_spec c "<"); [by left|right].
  destruct (Ascii.eqb_spec c ">"); [by left|right].
  destruct (Ascii.eqb_spec c dquote); [by left|right].
  destruct (Ascii.eqb_spec c "'"); [by left|right].
  by repeat split.
Qed.

Lemma chars_append (a b : string) : chars (a +:+ b) = chars a ++ chars b.
Proof. induction a as [|c a IH]; simpl; [done|]. by rewrite IH. Qed.

(** X13.  The text that [escapeHtml] returns contains no angle bracket,
    no double quote and no apostrophe, whatever the input. *)
Theorem escapeHtml_no_markup (s : option string) (c : ascii) :
  c ∈ chars (escapeHtml s) → c ∉ markup_chars.
Proof.
  unfold escapeHtml. generalize (default EmptyString s). clear s.
  intros s. induction s as [|a s IH]; cbn [replace_special chars].
  - by intros ?%elem_of_nil.
  - rewrite chars_append, elem_of_app. intros [Hc|Hc]; [|by apply IH].
    unfold markup_chars.
    destruct (escape_char_cases a)
      as [[_ Hx]|[[_ Hx]|[[_ Hx]|[[_ Hx]|[[_ Hx]|(_ & H1 & H2 & H3 & H4 & Hx)]]]]];
      rewrite Hx in Hc; cbn [chars] in Hc;
      repeat (apply elem_of_cons in Hc as [->|Hc]);
      try (by apply elem_of_nil in Hc);
      rewrite !not_elem_of_cons; unfold dquote in *;
      by repeat split; try apply not_elem_of_nil.
Qed.

Lemma escapeHtml_no_markup_witness :
  "&"%char ∈ chars (escapeHtml (Some "<b>")) ∧ "&"%char ∉ markup_chars.
Proof.
  assert (H : "&"%char ∈ chars (escapeHtml (Some "<b>"))) by apply list_elem_of_here.
  split; [exact H|]. exact (escapeHtml_no_markup (Some "<b>") "&" H).
Defined.

(** X14.  [escapeHtml] returns the empty text for null, undefined and
    the empty text, and returns a text that has none of the five
    special characters as it is. *)
Theorem escapeHtml_plain_text (s : string) :
  escapeHtml None = EmptyString
  ∧ escapeHtml (Some EmptyString) = EmptyString
  ∧ ((∀ c, c ∈ chars s → c ∉ special_chars) → escapeHtml (Some s) = s).
Proof.
  split; [done|]. split; [done|]. unfold escapeHtml. cbn [default from_option id].
  induction s as [|a s IH]; intros H; cbn [replace_special]; [done|].
  rewrite IH by (intros c Hc; apply H; cbn [chars]; by apply list_elem_of_further).
  assert (Ha : a ∉ special_chars) by (apply H; apply list_elem_of_here).
  unfold special_chars, markup_chars in Ha. rewrite !not_elem_of_cons in Ha.
  destruct Ha as (H0 & H1 & H2 & H3 & H4 & _).
  destruct (escape_char_cases a)
    as [[? _]|[[? _]|[[? _]|[[? _]|[[? _]|(_ & _ & _ & _ & _ & ->)]]]]]; done.
Qed.

Lemma escapeHtml_plain_text_witness : escapeHtml (Some "Bob") = "Bob".
Proof.
  apply escapeHtml_plain_text. intros c Hc. cbn [chars] in Hc.
  unfold special_chars, markup_chars, dquote.
  repeat (apply elem_of_cons in Hc as [->|Hc]);
    [..|by apply elem_of_nil in Hc];
    rewrite !not_elem_of_cons; by repeat split; try apply not_elem_of_nil.
Defined.

Lemma replace_special_nonempty (a : ascii) (s : string) :
  replace_special (String a s) ≠ EmptyString.
Proof.
  cbn [replace_special].
  destruct (escape_char_cases a)
    as [[_ ->]|[[_ ->]|[[_ ->]|[[_ ->]|[[_ ->]|(_ & _ & _ & _ & _ & ->)]]]]];
    discriminate.
Qed.

(** X15.  [escapeHtml] loses nothing: two different texts are never
    escaped to the same text. *)
Theorem escapeHtml_injective (a b : string) :
  escapeHtml (Some a) = escapeHtml (Some b) → a = b.
Proof.
  unfold escapeHtml. cbn [default from_option id].
  revert b. induction a as [|x a IH]; intros [|y b] H.
  - done.
  - symmetry in H. by apply replace_special_nonempty in H.
  - by apply replace_special_nonempty in H.
  - cbn [replace_special] in H.
    destruct (escape_char_cases x)
      as [[-> Hx]|[[-> Hx]|[[-> Hx]|[[-> Hx]|[[-> Hx]|(X1 & X2 & X3 & X4 & X5 & Hx)]]]]];
    destruct (escape_char_cases y)
      as [[-> Hy]|[[-> Hy]|[[-> Hy]|[[-> Hy]|[[-> Hy]|(Y1 & Y2 & Y3 & Y4 & Y5 & Hy)]]]]];
    rewrite ?Hx, ?Hy in H; cbn [String.append] in H; unfold dquote in *;
    try discriminate H;
    try (injection H as H; f_equal; by apply IH);
    try (injection H as H1 H2; congruence).
    injection H as -> H. f_equal. by apply IH.
Qed.

Lemma escapeHtml_injective_witness :
  escapeHtml (Some "Tom & Jerry") = "Tom &amp; Jerry"
  ∧ "Tom & Jerry" = "Tom " +:+ "& Jerry".
Proof.
  split; [reflexivity|]. apply escapeHtml_injective. reflexivity.
Defined.

(** ** Sample content *)





(** ** The history, entry by entry *)

Lemma fold_Set_add_filter (arr acc : list string) :
  NoDup arr →
  fold_left Set_add arr acc
  = acc ++ List.filter (fun y => negb (includes acc y)) arr.
Proof.
  revert acc. induction arr as [|y arr IH]; intros acc Hnd; cbn [fold_left List.filter].
  - by rewrite app_nil_r.
  - apply NoDup_cons in Hnd as [Hy Hnd]. rewrite (IH _ Hnd). unfold Set_add.
    destruct (includes acc y) eqn:Hinc; cbn [negb]; [done|].
    rewrite <- app_assoc. cbn [app]. do 2 f_equal.
    apply List.filter_ext_in. intros z Hz. f_equal.
    unfold includes. rewrite existsb_app. cbn [existsb].
    destruct (String.eqb_spec z y) as [->|_].
    + destruct Hy. by apply list_elem_of_In.
    + by rewrite !orb_false_r.
Qed.

(** X17.  On a history without repeats, a call that plays moves its
    song to the front and keeps the others in their order: the new
    history is the song followed by the first 49 entries of the old one
    without that song.  So with fewer than 50 entries nothing but the
    repeat is dropped. *)
Theorem history_moves_song_to_front (songId : string) (old : list string) :
  NoDup old →
  mark_recently_played songId (Some old)
  = songId :: List.filter (fun y => negb (String.eqb y songId)) (take 49 old).
Proof.
  intros Hnd. destruct (mark_recently_played_spec songId (Some old)) as [-> _].
  cbn [default from_option id].
  change (take 50 (songId :: old)) with (songId :: take 49 old).
  unfold Array_from_Set. cbn [fold_left]. unfold Set_add at 2. cbn [includes existsb app].
  rewrite fold_Set_add_filter by (eapply sublist_NoDup; [done | apply sublist_take]).
  cbn [app]. f_equal. apply List.filter_ext. intros y.
  unfold includes. cbn [existsb]. by rewrite orb_false_r.
Qed.

Lemma history_moves_song_to_front_witness :
  mark_recently_played "song_2" (Some ["song_1"; "song_2"; "song_3"])
  = ["song_2"; "song_1"; "song_3"].
Proof.
  rewrite history_moves_song_to_front; [reflexivity|].
  compute_done.
Defined.

(** ** Next, previous and the clicks that start playback *)

Lemma indexOf_NoDup (q : list string) (j : nat) (s : string) :
  NoDup q → q !! j = Some s → indexOf q s = Z.of_nat j.
Proof.
  intros Hnd Hj.
  destruct (indexOf_elem q s) as ([H0 _] & Hl & _).
  { apply list_elem_of_lookup. eauto. }
  pose proof (NoDup_lookup q _ _ s Hnd Hl Hj). lia.
Qed.

Lemma playNext_request (w : World) (s : string) :
  let q := queue (player w) in
  let n := Z.of_nat (length q) in
  let i' := (index (player w) + 1) mod n in
  1 <= n → 0 <= index (player w) → q !! Z.to_nat i' = Some s →
  playNext w = playSong s (Some q) (with_player (with_index i' (player w)) w).
Proof.
  intros q n i' Hn Hi Hs. unfold playNext. run. fold q. fold n.
  assert (Hz : (n =? 0) = false) by (apply Z.eqb_neq; lia).
  rewrite Hz, (js_rem_next _ n Hi Hn). fold i'.
  destruct (at_index_in_range q i') as (s' & -> & Hs').
  { apply Z.mod_pos_bound. lia. }
  rewrite Hs in Hs'. by injection Hs' as <-.
Qed.

Lemma playPrev_request (w : World) (s : string) :
  let q := queue (player w) in
  let n := Z.of_nat (length q) in
  let i' := (index (player w) - 1) mod n in
  1 <= n → 0 <= index (player w) → q !! Z.to_nat i' = Some s →
  playPrev w = playSong s (Some q) (with_player (with_index i' (player w)) w).
Proof.
  intros q n i' Hn Hi Hs. unfold playPrev. run. fold q. fold n.
  assert (Hz : (n =? 0) = false) by (apply Z.eqb_neq; lia).
  rewrite Hz, (js_rem_prev _ n Hi Hn). fold i'.
  destruct (at_index_in_range q i') as (s' & -> & Hs').
  { apply Z.mod_pos_bound. lia. }
  rewrite Hs in Hs'. by injection Hs' as <-.
Qed.

(** What a completed move of the cursor to position [i'] leaves, when
    the move requests song [s] with the current queue. *)
Lemma moved_then_settled (w : World) (hw : Settled unit) (s : string) (i' : Z)
    (m : M (option Pending)) :
  let q := queue (player w) in
  let w' := with_player (with_index i' (player w)) w in
  m w = playSong s (Some q) w' →
  0 <= i' → q !! Z.to_nat i' = Some s →
  let w1 := exec (p ← m; settle p hw) w in
  (plays s hw w = true →
     queue (player w1) = q
     ∧ index (player w1) = index_in q s
     ∧ (NoDup q → index (player w1) = i')
     ∧ currentSongId (player w1) = Some s
     ∧ playing (player w1) = true
     ∧ head (default [] (recentlyPlayed (meta w1))) = Some s)
  ∧ (plays s hw w = false →
     queue (player w1) = q
     ∧ index (player w1) = i'
     ∧ currentSongId (player w1) = currentSongId (player w)
     ∧ playing (player w1) = playing (player w)
     ∧ meta w1 = meta w).
Proof.
  intros q w' Hm Hi Hs w1.
  assert (Hw1 : w1 = exec (play s (Some q) hw) w').
  { subst w1. unfold exec, play. unfold mbind at 1 3, M_bind. by rewrite Hm. }
  assert (Hplays : plays s hw w' = plays s hw w) by done.
  rewrite Hw1. split; intros Hp; rewrite <- Hplays in Hp.
  - destruct (play_success w' s (Some q) hw Hp) as (_ & Hq & Hidx & Hpl & Hcur & Hrp & _).
    cbn [default from_option id] in Hq, Hidx.
    split; [done|]. split; [done|]. split.
    { intros Hnd. rewrite Hidx. unfold index_in.
      rewrite (indexOf_NoDup q _ s Hnd Hs).
      destruct (Z.leb_spec 0 (Z.of_nat (Z.to_nat i'))); lia. }
    split; [done|]. split; [done|]. rewrite Hrp. cbn [default from_option id].
    by destruct (mark_recently_played_spec s (recentlyPlayed (meta w'))) as (_ & _ & _ & ?).
  - destruct (play_failure w' s (Some q) hw Hp) as (_ & Hmeta & Hq & Hidx & Hpl & Hcur).
    by repeat split.
Qed.

(** X18.  On a queue of length N >= 1 with a cursor that is not
    negative, the "next" button run to completion requests the song at
    (index + 1) mod N.  If that song plays, it becomes the current song,
    heads the history, and the cursor rests on its first occurrence in
    the queue, which is (index + 1) mod N when the queue has no
    repeats.  If it does not play, the cursor has moved to
    (index + 1) mod N all the same while the current song, the playing
    flag and the document are as before.  The "previous" button
    behaves alike with (index - 1) mod N. *)
Theorem next_prev_run_to_completion (w : World) (hw : Settled unit) :
  let q := queue (player w) in
  let n := Z.of_nat (length q) in
  let i := index (player w) in
  1 <= n → 0 <= i →
  ∀ (forward : bool),
    let i' := if forward then (i + 1) mod n else (i - 1) mod n in
    let w1 := exec (if forward then next_track hw else prev_track hw) w in
    ∃ s, q !! Z.to_nat i' = Some s
      ∧ (plays s hw w = true →
           queue (player w1) = q
           ∧ index (player w1) = index_in q s
           ∧ (NoDup q → index (player w1) = i')
           ∧ currentSongId (player w1) = Some s
           ∧ playing (player w1) = true
           ∧ head (default [] (recentlyPlayed (meta w1))) = Some s)
      ∧ (plays s hw w = false →
           queue (player w1) = q
           ∧ index (player w1) = i'
           ∧ currentSongId (player w1) = currentSongId (player w)
           ∧ playing (player w1) = playing (player w)
           ∧ meta w1 = meta w).
Proof.
  intros q n i Hn Hi forward i' w1.
  assert (Hr : 0 <= i' < n) by (subst i'; destruct forward; apply Z.mod_pos_bound; lia).
  destruct (at_index_in_range q i' Hr) as (s & _ & Hs).
  exists s. split; [done|]. subst w1 i'. destruct forward.
  - apply (moved_then_settled w hw s _ playNext); [|lia|done].
    by apply playNext_request.
  - apply (moved_then_settled w hw s _ playPrev); [|lia|done].
    by apply playPrev_request.
Qed.

Lemma next_prev_run_to_completion_witness :
  ∃ s, ["song_2"; "song_1"] !! Z.to_nat ((0 + 1) mod 2) = Some s
       ∧ (plays s (Fulfilled tt) demo_world = true →
            currentSongId (player (exec (next_track (Fulfilled tt))
                                     world_queue_of_two)) = Some s).
Proof.
  destruct (next_prev_run_to_completion world_queue_of_two (Fulfilled tt))
    with (forward := true) as (s & Hs & Hok & _); [simpl; lia | simpl; lia |].
  exists s. split; [exact Hs|]. intros Hp. by apply Hok.
Defined.

(** X19.  When the song and its blob are found but playback is
    rejected, the call logs the error and shows "Playback error"; the
    queue, the index, the current song, the playing flag and the
    document are unchanged and nothing is saved, but the audio element
    already holds the new blob.  Without an audio element the same
    message is shown and nothing at all is changed. *)
Theorem playSong_rejected (w : World) (songId : string) (cq : option (list string))
    (song : Song) (blob : Blob) :
  List.find (has_id songId) (songs (meta w)) = Some song →
  assets w !! assetId song = Some blob →
  (is_Some (audioEl (player w)) →
     play songId cq Rejected w
     = (Return tt,
        with_trace (trace w ++ [ConsoleError; Toast "Playback error"])
          (with_player (with_audioEl (Some {| src := Some blob |}) (player w)) w)))
  ∧ (audioEl (player w) = None →
     ∀ hw, play songId cq hw w
           = (Return tt, with_trace (trace w ++ [ConsoleError; Toast "Playback error"]) w)).
Proof.
  intros Hf Hb. split.
  - intros Ha. run_play. rewrite Hf. run. rewrite Hb. run.
    rewrite bool_decide_eq_true_2 by done. run.
    unfold with_trace, with_player; cbn. by rewrite <- app_assoc.
  - intros Ha hw. run_play. rewrite Hf. run. rewrite Hb. run.
    rewrite bool_decide_eq_false_2 by (rewrite Ha; by intros [? ?]). run.
    unfold with_trace; cbn. by rewrite <- app_assoc.
Qed.

Lemma playSong_rejected_witness :
  queue (player (exec (play "song_1" (Some ["song_2"; "song_1"]) Rejected) demo_world))
  = ["song_1"].
Proof.
  destruct (playSong_rejected demo_world "song_1" (Some ["song_2"; "song_1"])
              (demo_song "song_1") demo_blob) as [H _];
    [reflexivity | vm_compute; reflexivity |].
  unfold exec. rewrite H; [reflexivity|]. by eexists.
Defined.

Lemma find_has_id_Some (l : list Song) (id : string) :
  id ∈ List.map song_id l →
  ∃ s, List.find (has_id id) l = Some s ∧ song_id s = id ∧ s ∈ l.
Proof.
  induction l as [|a l IH]; cbn [List.map List.find]; [by intros ?%elem_of_nil|].
  intros Hin. unfold has_id at 1. destruct (String.eqb_spec (song_id a) id) as [He|Hne].
  - exists a. split; [done|]. split; [done | apply list_elem_of_here].
  - apply elem_of_cons in Hin as [?|Hin]; [congruence|].
    destruct (IH Hin) as (s & Hf & Hid & Hs). exists s.
    split; [done|]. split; [done | by apply list_elem_of_further].
Qed.

(** X20.  A click on a "Daily Mix" card (number [i] >= 0) or a double
    click on the card of a listed song never ends in "Song missing":
    with at least one song in the document the call is started for a
    listed song carrying the requested id, with all song ids as its
    queue, and nothing is changed or shown.  With no song at all the
    mix card does nothing. *)
Theorem card_clicks_find_their_song (w : World) (i : Z) (s : Song) :
  0 <= i →
  (songs (meta w) = [] → daily_mix_click i w = (Return None, w))
  ∧ (songs (meta w) ≠ [] →
       ∃ p, daily_mix_click i w = (Return (Some p), w)
            ∧ pending_song p ∈ songs (meta w)
            ∧ song_id (pending_song p) = pending_songId p
            ∧ pending_queue p = Some (List.map song_id (songs (meta w))))
  ∧ (s ∈ songs (meta w) →
       ∃ p, song_card_dblclick s w = (Return (Some p), w)
            ∧ pending_song p ∈ songs (meta w)
            ∧ song_id (pending_song p) = song_id s
            ∧ pending_queue p = Some (List.map song_id (songs (meta w)))).
Proof.
  intros Hi.
  assert (Hstart : ∀ id, id ∈ List.map song_id (songs (meta w)) →
            ∃ p, playSong id (Some (List.map song_id (songs (meta w)))) w
                 = (Return (Some p), w)
                 ∧ pending_song p ∈ songs (meta w)
                 ∧ song_id (pending_song p) = id ∧ pending_songId p = id
                 ∧ pending_queue p = Some (List.map song_id (songs (meta w)))).
  { intros id Hid. destruct (find_has_id_Some _ _ Hid) as (s0 & Hf & Hs0 & Hin).
    unfold playSong. run. rewrite Hf. run. eexists. split; [reflexivity|].
    by repeat split. }
  split; [|split].
  - intros Hs. unfold daily_mix_click. run. by rewrite Hs.
  - intros Hs. unfold daily_mix_click. run.
    set (q := List.map song_id (songs (meta w))).
    assert (Hn : 1 <= Z.of_nat (length q)).
    { subst q. rewrite length_map. destruct (songs (meta w)); [done|]. simpl. lia. }
    assert (Hz : (Z.of_nat (length q) =? 0) = false) by (apply Z.eqb_neq; lia).
    rewrite Hz. unfold js_rem. rewrite Z.rem_mod_nonneg by lia.
    destruct (at_index_in_range q (i mod Z.of_nat (length q))) as (id & -> & Hid).
    { apply Z.mod_pos_bound. lia. }
    cbn [playSong_at]. destruct (Hstart id) as (p & Hp & Hin & Hid1 & Hid2 & Hq).
    { apply list_elem_of_lookup. eauto. }
    exists p. subst q. rewrite Hp. destruct p as [psid pq ps pa].
    cbn [pending_songId pending_queue pending_song] in *.
    split; [done|]. split; [done|]. split; [congruence | done].
  - intros Hs. unfold song_card_dblclick. unfold mbind, M_bind, get. 
    destruct (Hstart (song_id s)) as (p & Hp & Hin & Hid1 & Hid2 & Hq).
    { apply list_elem_of_In, in_map. by apply list_elem_of_In. }
    exists p. by rewrite Hp.
Qed.

Lemma card_clicks_find_their_song_witness :
  ∃ p, daily_mix_click 3 demo_world = (Return (Some p), demo_world)
       ∧ pending_songId p = "song_2".
Proof.
  destruct (card_clicks_find_their_song demo_world 3 (demo_song "song_1"))
    as (_ & H & _); [lia|].
  destruct H as (p & Hp & _); [discriminate|].
  exists p. split; [exact Hp|].
  assert (Hc : fst (daily_mix_click 3 demo_world)
               = Return (Some {| pending_songId := "song_2";
                                 pending_queue := Some ["song_1"; "song_2"];
                                 pending_song := demo_song "song_2";
                                 pending_audio := true |})) by reflexivity.
  rewrite Hp in Hc. cbn [fst] in Hc. by injection Hc as ->.
Defined.
